(** * Marketing Performance Analyzer: metrics, ranking and recommendations

    A shallow embedding of [analyzer.py]: [calculate_metrics],
    [rank_campaigns] and the selection logic of
    [generate_recommendations], together with the pandas / numpy
    operations those functions call.

    Numbers.  The script computes on pandas columns of dtype [int64] and
    [float64].  The file holds two embeddings of it.

    - Module [Analyzer] computes as the script does.  A [float64] value
      is a primitive float of Rocq, whose sum, difference, product and
      quotient are the IEEE 754 binary64 operations, with signed zeros,
      overflow to infinity and NaN.  An [int64] value is a [Z], with the
      wrap-around written out where the script multiplies or sums.  A
      comparison of two floats is the comparison of the numbers they
      denote ([F64.value]).  Every statement about a value that the
      script computes is made on [Analyzer].

    - The definitions outside [Analyzer] are the same functions over
      [fl]: a rational, or one of +inf, -inf, NaN.  Arithmetic on the
      finite part is exact there: the binary rounding of each operation,
      signed zeros and overflow are left out, and integer columns are
      unbounded.  This embedding carries the statements that depend on
      the order of the values or on the place of the rounding step only:
      the ranking, the comparisons with NaN, and which values the
      classifier receives.  numpy's sorting routine is written once,
      over [fl] keys; [Analyzer] runs it on the numbers that its floats
      denote.

    Tables.  A DataFrame is a list of rows; a column operation is a [map]
    over the rows.  [Frame] adds the one case in which the columns that
    [read_csv] returns are not numeric: a file with a header and no data
    row. *)

From Stdlib Require Import String.
From Stdlib Require Import ZArith QArith Qround Qabs Qreduction Qpower.
From Stdlib Require Import List Bool Lia Lqa.
From Stdlib Require Import Permutation Sorted.
From Stdlib Require Import Floats.
Import ListNotations.

Open Scope Z_scope.

(** * The script with exact arithmetic *)

(** ** Floats as rationals *)

Inductive fl : Type :=
| Fin (q : Q)
| PInf
| NInf
| NaN.

Module Fl.

Definition of_Z (z : Z) : fl := Fin (inject_Z z).

Definition isnan (x : fl) : bool :=
  match x with NaN => true | _ => false end.

Definition isfinite (x : fl) : bool :=
  match x with Fin _ => true | _ => false end.

(** Sign of a rational: the sign of its numerator. *)
Definition Qsign (q : Q) : comparison := (Qnum q ?= 0)%Z.

Definition opp (x : fl) : fl :=
  match x with
  | Fin q => Fin (Qred (- q)%Q)
  | PInf => NInf
  | NInf => PInf
  | NaN => NaN
  end.

Definition add (x y : fl) : fl :=
  match x, y with
  | NaN, _ | _, NaN => NaN
  | Fin a, Fin b => Fin (Qred (a + b)%Q)
  | PInf, NInf | NInf, PInf => NaN
  | PInf, _ | _, PInf => PInf
  | NInf, _ | _, NInf => NInf
  end.

Definition sub (x y : fl) : fl := add x (opp y).

(** An infinity with the sign [s]; 0 * inf is NaN. *)
Definition signed_inf (s : comparison) : fl :=
  match s with Gt => PInf | Lt => NInf | Eq => NaN end.

Definition flip (s : comparison) : comparison := CompOpp s.

Definition mul (x y : fl) : fl :=
  match x, y with
  | NaN, _ | _, NaN => NaN
  | Fin a, Fin b => Fin (Qred (a * b)%Q)
  | Fin a, PInf | PInf, Fin a => signed_inf (Qsign a)
  | Fin a, NInf | NInf, Fin a => signed_inf (flip (Qsign a))
  | PInf, PInf | NInf, NInf => PInf
  | PInf, NInf | NInf, PInf => NInf
  end.

(** True division.  A finite value over zero is +inf or -inf by the
    sign of the numerator, and 0 / 0 is NaN; nothing is raised.  This
    is also what pandas gives for a division of two [int64] columns. *)
Definition div (x y : fl) : fl :=
  match x, y with
  | NaN, _ | _, NaN => NaN
  | Fin a, Fin b =>
      match Qsign b with
      | Eq => signed_inf (Qsign a)
      | _ => Fin (Qred (a / b)%Q)
      end
  | Fin _, PInf | Fin _, NInf => Fin 0
  | PInf, Fin b =>
      match Qsign b with Lt => NInf | _ => PInf end
  | NInf, Fin b =>
      match Qsign b with Lt => PInf | _ => NInf end
  | PInf, PInf | PInf, NInf | NInf, PInf | NInf, NInf => NaN
  end.

Definition Qlt_bool (a b : Q) : bool := negb (Qle_bool b a).

(** [x < y]; false as soon as one side is NaN. *)
Definition ltb (x y : fl) : bool :=
  match x, y with
  | NaN, _ | _, NaN => false
  | Fin a, Fin b => Qlt_bool a b
  | NInf, NInf => false
  | NInf, _ => true
  | _, NInf => false
  | PInf, _ => false
  | Fin _, PInf => true
  end.

(** [x > y]. *)
Definition gtb (x y : fl) : bool := ltb y x.

(** [x <= y]; false as soon as one side is NaN. *)
Definition leb (x y : fl) : bool :=
  match x, y with
  | NaN, _ | _, NaN => false
  | Fin a, Fin b => Qle_bool a b
  | NInf, _ => true
  | _, PInf => true
  | _, NInf => false
  | PInf, Fin _ => false
  end.

(** [x == y] on floats: NaN differs from everything, NaN included. *)
Definition eqb (x y : fl) : bool :=
  match x, y with
  | Fin a, Fin b => Qeq_bool a b
  | PInf, PInf | NInf, NInf => true
  | _, _ => false
  end.

(** [x] is the finite value [q]. *)
Definition is_value (x : fl) (q : Q) : Prop :=
  exists q', x = Fin q' /\ (q' == q)%Q.

(** Round to the nearest integer, ties to the even one ([rint]). *)
Definition rint (q : Q) : Z :=
  let f := Qfloor q in
  match ((q - inject_Z f) ?= (1 # 2))%Q with
  | Lt => f
  | Gt => f + 1
  | Eq => if Z.even f then f else f + 1
  end.

(** [numpy.round(x, decimals)] for [decimals >= 0]:
    [rint(x * 10**decimals) / 10**decimals]. *)
Definition round (x : fl) (decimals : nat) : fl :=
  match x with
  | Fin q =>
      let p := inject_Z (10 ^ Z.of_nat decimals) in
      Fin (Qred (inject_Z (rint (q * p)%Q) / p)%Q)
  | _ => x
  end.

End Fl.

(** ** Data model *)

(** A row of the input table. *)
Record CampaignRecord : Type := {
  campaign_name : string;
  impressions : Z;
  clicks : Z;
  conversions : Z;
  spend : fl
}.

(** A row after [calculate_metrics]: the input columns and the five
    derived columns. *)
Record CampaignMetrics : Type := {
  record : CampaignRecord;
  CTR : fl;
  CPC : fl;
  CPA : fl;
  conversion_rate : fl;
  ROI : fl
}.

(** A row after [rank_campaigns]: the [rank] column inserted in front. *)
Record RankedCampaign : Type := {
  rank : Z;
  metrics : CampaignMetrics
}.

(** ** calculate_metrics *)

Definition avg_order_value : Z := 50.

(** Lines 66-84: the five derived columns before rounding. *)
Definition derive_metrics (r : CampaignRecord) : CampaignMetrics :=
  let revenue := conversions r * avg_order_value in
  {| record := r;
     CTR := Fl.mul (Fl.div (Fl.of_Z (clicks r)) (Fl.of_Z (impressions r)))
                   (Fl.of_Z 100);
     CPC := Fl.div (spend r) (Fl.of_Z (clicks r));
     CPA := Fl.div (spend r) (Fl.of_Z (conversions r));
     conversion_rate :=
       Fl.mul (Fl.div (Fl.of_Z (conversions r)) (Fl.of_Z (clicks r)))
              (Fl.of_Z 100);
     ROI := Fl.mul (Fl.div (Fl.sub (Fl.of_Z revenue) (spend r)) (spend r))
                   (Fl.of_Z 100) |}.

(** Lines 87-91: every derived column is replaced by its rounding to two
    decimals. *)
Definition round_metrics (m : CampaignMetrics) : CampaignMetrics :=
  {| record := record m;
     CTR := Fl.round (CTR m) 2;
     CPC := Fl.round (CPC m) 2;
     CPA := Fl.round (CPA m) 2;
     conversion_rate := Fl.round (conversion_rate m) 2;
     ROI := Fl.round (ROI m) 2 |}.

Definition calculate_metrics (df : list CampaignRecord) : list CampaignMetrics :=
  map (fun r => round_metrics (derive_metrics r)) df.

(** ** numpy's argsort, kind 'quicksort'

    [DataFrame.sort_values] is called without [kind], so pandas reaches
    numpy's [argsort] with its default kind, [quicksort].  The scalar
    routine for [float64] keys is an introsort on the array [tosort] of
    positions: median-of-three partitioning while the bounds of a
    segment are more than [SMALL_QUICKSORT] apart (a segment of 17
    positions is partitioned, one of 16 is not), insertion sort on the
    short segments, and heapsort once the depth limit is used up.  The library documents this
    kind as not stable.  [v] is the key array, [a] the array of positions;
    segment bounds are inclusive. *)

Module NpSort.
Section WithKeys.

Variable v : list fl.

Definition key (i : nat) : fl := nth i v NaN.

(** numpy's order on floats: NaN is larger than every number. *)
Definition LT (x y : fl) : bool :=
  Fl.ltb x y || (Fl.isnan y && negb (Fl.isnan x)).

Definition get (a : list nat) (p : Z) : nat := nth (Z.to_nat p) a 0%nat.

Fixpoint set_nth (a : list nat) (n : nat) (x : nat) : list nat :=
  match a, n with
  | [], _ => []
  | _ :: t, O => x :: t
  | h :: t, S n' => h :: set_nth t n' x
  end.

Definition set (a : list nat) (p : Z) (x : nat) : list nat :=
  if p <? 0 then a else set_nth a (Z.to_nat p) x.

Definition swap (a : list nat) (p q : Z) : list nat :=
  set (set a p (get a q)) q (get a p).

Definition swap_if_lt (a : list nat) (p q : Z) : list nat :=
  if LT (key (get a p)) (key (get a q)) then swap a p q else a.

(** [do ++pi; while (LT(v[*pi], vp))]. *)
Fixpoint scan_up (fuel : nat) (a : list nat) (vp : fl) (pi : Z) : Z :=
  match fuel with
  | O => pi
  | S f =>
      let pi := pi + 1 in
      if LT (key (get a pi)) vp then scan_up f a vp pi else pi
  end.

(** [do --pj; while (LT(vp, v[*pj]))]. *)
Fixpoint scan_down (fuel : nat) (a : list nat) (vp : fl) (pj : Z) : Z :=
  match fuel with
  | O => pj
  | S f =>
      let pj := pj - 1 in
      if LT vp (key (get a pj)) then scan_down f a vp pj else pj
  end.

(** The [for (;;)] loop of the partition; returns the array and [pi]. *)
Fixpoint partition_loop (fuel : nat) (a : list nat) (vp : fl) (pi pj : Z)
  : list nat * Z :=
  match fuel with
  | O => (a, pi)
  | S f =>
      let pi := scan_up (length a) a vp pi in
      let pj := scan_down (length a) a vp pj in
      if pi >=? pj then (a, pi)
      else partition_loop f (swap a pi pj) vp pi pj
  end.

Definition partition (a : list nat) (pl pr : Z) : list nat * Z :=
  let pm := pl + Z.shiftr (pr - pl) 1 in
  let a := swap_if_lt a pm pl in
  let a := swap_if_lt a pr pm in
  let a := swap_if_lt a pm pl in
  let vp := key (get a pm) in
  let pi := pl in
  let pj := pr - 1 in
  let a := swap a pm pj in
  let '(a, pi) := partition_loop (length a) a vp pi pj in
  let pk := pr - 1 in
  (swap a pi pk, pi).

(** [while (pj > pl && LT(vp, v[*pk])) *pj-- = *pk--;  *pj = vi]. *)
Fixpoint insert_down (fuel : nat) (a : list nat) (pl : Z) (vi : nat) (pj : Z)
  : list nat :=
  match fuel with
  | O => set a pj vi
  | S f =>
      let pk := pj - 1 in
      if (pj >? pl) && LT (key vi) (key (get a pk))
      then insert_down f (set a pj (get a pk)) pl vi pk
      else set a pj vi
  end.

(** [for (pi = pl + 1; pi <= pr; ++pi)]. *)
Fixpoint insertion_loop (fuel : nat) (a : list nat) (pl pr pi : Z)
  : list nat :=
  match fuel with
  | O => a
  | S f =>
      if pi <=? pr
      then insertion_loop f (insert_down (length a) a pl (get a pi) pi)
                          pl pr (pi + 1)
      else a
  end.

Definition insertion_sort (a : list nat) (pl pr : Z) : list nat :=
  insertion_loop (length a) a pl pr (pl + 1).

(** Heapsort of the [n] positions from [pl] on, with the one-based
    indexing of the C routine: [a[i]] is the cell [pl + i - 1]. *)
Fixpoint sift (fuel : nat) (a : list nat) (pl : Z) (n : Z) (tmp : nat)
  (i j : Z) : list nat :=
  let cell k := pl + k - 1 in
  match fuel with
  | O => set a (cell i) tmp
  | S f =>
      if j <=? n then
        let j :=
          if (j <? n) && LT (key (get a (cell j))) (key (get a (cell (j + 1))))
          then j + 1 else j in
        if LT (key tmp) (key (get a (cell j)))
        then sift f (set a (cell i) (get a (cell j))) pl n tmp j (j + j)
        else set a (cell i) tmp
      else set a (cell i) tmp
  end.

(** [for (l = n >> 1; l > 0; --l)]. *)
Fixpoint heapify (fuel : nat) (a : list nat) (pl n l : Z) : list nat :=
  match fuel with
  | O => a
  | S f =>
      if l >? 0
      then heapify f (sift (length a) a pl n (get a (pl + l - 1)) l
                           (Z.shiftl l 1))
                   pl n (l - 1)
      else a
  end.

(** [for (; n > 1;)]. *)
Fixpoint heap_extract (fuel : nat) (a : list nat) (pl n : Z) : list nat :=
  match fuel with
  | O => a
  | S f =>
      if n >? 1 then
        let tmp := get a (pl + n - 1) in
        let a := set a (pl + n - 1) (get a pl) in
        let n := n - 1 in
        heap_extract f (sift (length a) a pl n tmp 1 2) pl n
      else a
  end.

Definition aheapsort (a : list nat) (pl n : Z) : list nat :=
  let a := heapify (length a) a pl n (Z.shiftr n 1) in
  heap_extract (length a) a pl n.

Definition SMALL_QUICKSORT : Z := 15.

(** The main loop.  [check] is true at the head of the outer
    [while (1)], where the depth limit is tested; the stack holds the
    postponed segments with their depth. *)
Fixpoint aquicksort_loop (fuel : nat) (a : list nat) (pl pr cdepth : Z)
  (stack : list (Z * Z * Z)) (check : bool) : list nat :=
  let pop a :=
    match fuel, stack with
    | S f, (l, r, d) :: st => aquicksort_loop f a l r d st true
    | _, _ => a
    end in
  match fuel with
  | O => a
  | S f =>
      if check && (cdepth <? 0) then pop (aheapsort a pl (pr - pl + 1))
      else if pr - pl >? SMALL_QUICKSORT then
        let '(a, pi) := partition a pl pr in
        let cdepth := cdepth - 1 in
        if pi - pl <? pr - pi
        then aquicksort_loop f a pl (pi - 1) cdepth
                             ((pi + 1, pr, cdepth) :: stack) false
        else aquicksort_loop f a (pi + 1) pr cdepth
                             ((pl, pi - 1, cdepth) :: stack) false
      else pop (insertion_sort a pl pr)
  end.

End WithKeys.

(** [npy_get_msb(num) * 2]. *)
Definition depth_limit (num : Z) : Z := Z.log2 num * 2.

Definition argsort_quicksort (v : list fl) : list nat :=
  let num := Z.of_nat (length v) in
  aquicksort_loop v (2 * length v + 2) (seq 0 (length v)) 0 (num - 1)
                  (depth_limit num) [] true.

End NpSort.

(** ** pandas: sorting a frame by one float column *)

(** Boolean-mask selection [xs[mask]]. *)
Fixpoint select {A : Type} (mask : list bool) (xs : list A) : list A :=
  match mask, xs with
  | b :: mask', x :: xs' =>
      if b then x :: select mask' xs' else select mask' xs'
  | _, _ => []
  end.

(** [pandas.core.sorting.nargsort] with [na_position='last'].  The
    positions of the NaN keys are set aside and appended at the end; for
    a descending sort the rest is reversed, argsorted ascending by [kind]
    and reversed again. *)
Definition nargsort (kind : list fl -> list nat) (items : list fl)
  (ascending : bool) : list nat :=
  let idx := seq 0 (length items) in
  let mask := map Fl.isnan items in
  let non_nans := select (map negb mask) items in
  let non_nan_idx := select (map negb mask) idx in
  let nan_idx := select mask idx in
  let non_nans := if ascending then non_nans else rev non_nans in
  let non_nan_idx := if ascending then non_nan_idx else rev non_nan_idx in
  let indexer := map (fun i => nth i non_nan_idx 0%nat) (kind non_nans) in
  let indexer := if ascending then indexer else rev indexer in
  indexer ++ nan_idx.

(** [df.take(indexer)]: the rows at the given positions, in that order. *)
Definition take_rows {A : Type} (df : list A) (indexer : list nat) : list A :=
  flat_map (fun i => match nth_error df i with
                     | Some r => [r]
                     | None => []
                     end) indexer.

(** [df.sort_values(by, ascending=...)] on one float column. *)
Definition sort_values {A : Type} (kind : list fl -> list nat)
  (by_ : A -> fl) (ascending : bool) (df : list A) : list A :=
  take_rows df (nargsort kind (map by_ df) ascending).

(** Python's [range(lo, hi)]. *)
Definition range (lo hi : Z) : list Z :=
  map (fun k => lo + Z.of_nat k) (seq 0 (Z.to_nat (hi - lo))).

(** ** rank_campaigns *)

(** Lines 107-108.  [kind] is the argsort routine that [sort_values]
    reaches; the script leaves it at the default, see [rank_campaigns]. *)
Definition rank_campaigns_by (kind : list fl -> list nat)
  (df_metrics : list CampaignMetrics) : list RankedCampaign :=
  let df_ranked := sort_values kind ROI false df_metrics in
  map (fun p => {| rank := fst p; metrics := snd p |})
      (combine (range 1 (Z.of_nat (length df_ranked) + 1)) df_ranked).

Definition rank_campaigns (df_metrics : list CampaignMetrics)
  : list RankedCampaign :=
  rank_campaigns_by NpSort.argsort_quicksort df_metrics.

(** ** pandas: reductions of a float column *)

Module Series.

(** The non-NaN values of a column ([skipna=True]). *)
Definition dropna (xs : list fl) : list fl :=
  filter (fun x => negb (Fl.isnan x)) xs.

Fixpoint insert_sorted (x : fl) (s : list fl) : list fl :=
  match s with
  | [] => [x]
  | y :: t => if Fl.leb x y then x :: s else y :: insert_sorted x t
  end.

(** The values in ascending order. *)
Definition sorted (xs : list fl) : list fl :=
  fold_right insert_sorted [] xs.

Definition at_ (s : list fl) (i : Z) : fl := nth (Z.to_nat i) s NaN.

(** [Series.sum()]: NaN entries are skipped, the empty sum is 0. *)
Definition sum (xs : list fl) : fl :=
  fold_left Fl.add (dropna xs) (Fin 0).

(** [Series.sum()] of an [int64] column. *)
Definition sum_int (xs : list Z) : Z := fold_left Z.add xs 0.

(** [Series.median()]: NaN entries are skipped; the mean of the one or
    two middle values of the sorted rest; NaN when nothing is left. *)
Definition median (xs : list fl) : fl :=
  let s := sorted (dropna xs) in
  let n := Z.of_nat (length s) in
  if n =? 0 then NaN
  else if Z.even n
       then Fl.div (Fl.add (at_ s (n / 2 - 1)) (at_ s (n / 2))) (Fl.of_Z 2)
       else Fl.div (at_ s (n / 2)) (Fl.of_Z 1).

(** numpy's [_lerp(a, b, t)]. *)
Definition lerp (a b : fl) (t : Q) : fl :=
  let diff_b_a := Fl.sub b a in
  if Qle_bool (1 # 2) t
  then Fl.sub b (Fl.mul diff_b_a (Fin (1 - t)%Q))
  else Fl.add a (Fl.mul diff_b_a (Fin t)).

(** [Series.quantile(q)] with the default [interpolation='linear']:
    NaN entries are skipped; the virtual index is [(n - 1) * q]. *)
Definition quantile (xs : list fl) (q : Q) : fl :=
  let s := sorted (dropna xs) in
  let n := Z.of_nat (length s) in
  if n =? 0 then NaN
  else
    let virtual := (inject_Z (n - 1) * q)%Q in
    let previous := Qfloor virtual in
    let next := Z.min (previous + 1) (n - 1) in
    let gamma := (virtual - inject_Z previous)%Q in
    lerp (at_ s previous) (at_ s next) gamma.

End Series.

(** ** generate_recommendations

    The function prints its findings; the model returns what it selects
    and computes, section by section. *)

Inductive Finding : Type :=
| LowCTR
| LowConversionRate
| NegativeROI.

Inductive QuickWins : Type :=
| ScaleUp (rows : list RankedCampaign)
| NoQuickWins.

Record BudgetInsight : Type := {
  total_spend : fl;
  total_conversions : Z;
  avg_cpa : fl;
  efficient_campaigns : list RankedCampaign;
  inefficient_campaigns : list RankedCampaign
}.

Record Recommendations : Type := {
  top_performers : list RankedCampaign;
  underperformers : list (RankedCampaign * list Finding);
  high_ctr_low_conv : list RankedCampaign;
  budget : BudgetInsight;
  quick_wins : QuickWins
}.

Definition col (f : CampaignMetrics -> fl) (df : list RankedCampaign)
  : list fl :=
  map (fun row => f (metrics row)) df.

Definition col_spend (df : list RankedCampaign) : list fl :=
  map (fun row => spend (record (metrics row))) df.

Definition col_conversions (df : list RankedCampaign) : list Z :=
  map (fun row => conversions (record (metrics row))) df.

(** [df.head(n)] and [df.tail(n)]. *)
Definition head {A : Type} (n : nat) (df : list A) : list A := firstn n df.
Definition tail {A : Type} (n : nat) (df : list A) : list A :=
  skipn (length df - n) df.

(** Lines 168-173: the findings printed for one underperformer. *)
Definition findings (df_ranked : list RankedCampaign) (row : RankedCampaign)
  : list Finding :=
  (if Fl.ltb (CTR (metrics row)) (Series.median (col CTR df_ranked))
   then [LowCTR] else []) ++
  (if Fl.ltb (conversion_rate (metrics row))
             (Series.median (col conversion_rate df_ranked))
   then [LowConversionRate] else []) ++
  (if Fl.ltb (ROI (metrics row)) (Fl.of_Z 0) then [NegativeROI] else []).

(** Lines 177-180. *)
Definition select_high_ctr_low_conv (df_ranked : list RankedCampaign)
  : list RankedCampaign :=
  filter (fun row =>
            Fl.gtb (CTR (metrics row))
                   (Series.quantile (col CTR df_ranked) (75 # 100))
            && Fl.ltb (conversion_rate (metrics row))
                      (Series.median (col conversion_rate df_ranked)))
         df_ranked.

(** Lines 192-205. *)
Definition budget_insight (df_ranked : list RankedCampaign) : BudgetInsight :=
  let total_spend := Series.sum (col_spend df_ranked) in
  let total_conversions := Series.sum_int (col_conversions df_ranked) in
  let avg_cpa := Fl.div total_spend (Fl.of_Z total_conversions) in
  {| total_spend := total_spend;
     total_conversions := total_conversions;
     avg_cpa := avg_cpa;
     efficient_campaigns :=
       filter (fun row => Fl.ltb (CPA (metrics row)) avg_cpa) df_ranked;
     inefficient_campaigns :=
       filter (fun row => Fl.gtb (CPA (metrics row)) avg_cpa) df_ranked |}.

(** Lines 219-222. *)
Definition select_quick_wins (df_ranked : list RankedCampaign)
  : list RankedCampaign :=
  filter (fun row =>
            Fl.gtb (ROI (metrics row)) (Series.median (col ROI df_ranked))
            && Fl.ltb (spend (record (metrics row)))
                      (Series.median (col_spend df_ranked)))
         df_ranked.

(** Lines 224-229. *)
Definition report_quick_wins (rows : list RankedCampaign) : QuickWins :=
  match rows with
  | [] => NoQuickWins
  | _ => ScaleUp rows
  end.

Definition generate_recommendations (df_ranked : list RankedCampaign)
  : Recommendations :=
  {| top_performers := head 3 df_ranked;
     underperformers :=
       map (fun row => (row, findings df_ranked row)) (tail 3 df_ranked);
     high_ctr_low_conv := select_high_ctr_low_conv df_ranked;
     budget := budget_insight df_ranked;
     quick_wins := report_quick_wins (select_quick_wins df_ranked) |}.

(** The pipeline of [main], up to the report. *)
Definition analyze (df : list CampaignRecord) : Recommendations :=
  generate_recommendations (rank_campaigns (calculate_metrics df)).

Definition mk (name : string) (i c v : Z) (s : Q) : CampaignRecord :=
  {| campaign_name := name; impressions := i; clicks := c;
     conversions := v; spend := Fin s |}.

(** * The script on binary64 numbers *)

(** ** binary64 *)

Module F64.

(** The number that a float denotes.  Both zeros denote 0. *)
Definition value (x : float) : fl :=
  match Prim2SF x with
  | S754_zero _ => Fin 0
  | S754_infinity s => if s then NInf else PInf
  | S754_nan => NaN
  | S754_finite s m e =>
      Fin (Qred (inject_Z (if s then Z.neg m else Z.pos m) * 2 ^ e))
  end.

Definition isnan (x : float) : bool := Fl.isnan (value x).
Definition isfinite (x : float) : bool := Fl.isfinite (value x).

(** [x < y], [x > y] and [x <= y]: the comparisons of the denoted
    numbers, false as soon as one side is NaN. *)
Definition ltb (x y : float) : bool := Fl.ltb (value x) (value y).
Definition gtb (x y : float) : bool := ltb y x.
Definition leb (x y : float) : bool := Fl.leb (value x) (value y).

Definition signbit (x : float) : bool :=
  match Prim2SF x with
  | S754_zero s | S754_infinity s | S754_finite s _ _ => s
  | S754_nan => false
  end.

(** The [int64] that an integer result wraps to. *)
Definition wrap64 (z : Z) : Z := (z + 2 ^ 63) mod 2 ^ 64 - 2 ^ 63.

(** The conversion of an [int64] to [float64]: the nearest float, ties
    to even. *)
Definition of_int64 (z : Z) : float :=
  SF2Prim (binary_normalize prec emax z 0 false).

(** [rint]: the nearest integer, ties to the even one, with the sign of
    the argument.  A float of magnitude 2^52 or more is an integer
    already. *)
Definition rint (x : float) : float :=
  match value x with
  | Fin q =>
      if Qle_bool (inject_Z (2 ^ 52)) (Qabs q) then x
      else
        let k := Fl.rint q in
        if k =? 0 then (if signbit x then neg_zero else zero)
        else of_int64 k
  | _ => x
  end.

(** [numpy.round(x, decimals)] for [decimals >= 0]: the product with
    [10**decimals], [rint], and the quotient by [10**decimals], each in
    binary64. *)
Definition round (x : float) (decimals : nat) : float :=
  let p := of_int64 (10 ^ Z.of_nat decimals) in
  (rint (x * p) / p)%float.

End F64.

(** ** pandas: reductions of a [float64] or [int64] column *)

Module Series64.

(** The non-NaN values of a column ([skipna=True]). *)
Definition dropna (xs : list float) : list float :=
  filter (fun x => negb (F64.isnan x)) xs.

Fixpoint insert_sorted (x : float) (s : list float) : list float :=
  match s with
  | [] => [x]
  | y :: t => if F64.leb x y then x :: s else y :: insert_sorted x t
  end.

(** The values in ascending order. *)
Definition sorted (xs : list float) : list float :=
  fold_right insert_sorted [] xs.

Definition at_ (s : list float) (i : Z) : float := nth (Z.to_nat i) s nan.

(** numpy's pairwise summation.  [r[j] += a[i + j]] for the eight
    accumulators. *)
Definition add8 (r a : list float) : list float :=
  map (fun p => (fst p + snd p)%float) (combine r a).

(** [for (i = 8; i < n - (n % 8); i += 8)]: returns the accumulators
    and the elements left over. *)
Fixpoint accumulate (fuel : nat) (r a : list float)
  : list float * list float :=
  match fuel with
  | O => (r, a)
  | S f =>
      if (8 <=? length a)%nat
      then accumulate f (add8 r (firstn 8 a)) (skipn 8 a)
      else (r, a)
  end.

(** A block of 8 to [PW_BLOCKSIZE] elements. *)
Definition block_sum (a : list float) : float :=
  let '(r, rest) := accumulate (length a) (firstn 8 a) (skipn 8 a) in
  let r_ (i : nat) := nth i r zero in
  let res := (((r_ 0%nat + r_ 1%nat) + (r_ 2%nat + r_ 3%nat)) +
              ((r_ 4%nat + r_ 5%nat) + (r_ 6%nat + r_ 7%nat)))%float in
  fold_left PrimFloat.add rest res.

Definition PW_BLOCKSIZE : nat := 128.

Fixpoint pairwise_sum (fuel : nat) (a : list float) : float :=
  let n := length a in
  if (n <? 8)%nat then fold_left PrimFloat.add a zero
  else if (n <=? PW_BLOCKSIZE)%nat then block_sum a
  else
    match fuel with
    | O => block_sum a
    | S f =>
        let n2 := (n / 2)%nat in
        let n2 := (n2 - n2 mod 8)%nat in
        (pairwise_sum f (firstn n2 a) + pairwise_sum f (skipn n2 a))%float
    end.

(** [Series.sum()] of a [float64] column: a NaN entry counts as 0, the
    rest is summed pairwise; the empty sum is 0. *)
Definition sum (xs : list float) : float :=
  pairwise_sum (length xs) (map (fun x => if F64.isnan x then zero else x) xs).

(** [Series.sum()] of an [int64] column: the sum wraps. *)
Definition sum_int (xs : list Z) : Z :=
  fold_left (fun acc x => F64.wrap64 (acc + x)) xs 0.

(** [Series.median()]: NaN entries are skipped; the middle value of the
    sorted rest, or the mean of the two middle values; NaN when nothing
    is left. *)
Definition median (xs : list float) : float :=
  let s := sorted (dropna xs) in
  let n := Z.of_nat (length s) in
  if n =? 0 then nan
  else if Z.even n
       then ((at_ s (n / 2 - 1) + at_ s (n / 2)) / 2)%float
       else at_ s (n / 2).

(** numpy's [_lerp(a, b, t)]. *)
Definition lerp (a b t : float) : float :=
  let diff_b_a := (b - a)%float in
  if F64.leb 0.5 t
  then (b - diff_b_a * (1 - t))%float
  else (a + diff_b_a * t)%float.

(** [Series.quantile(q)] with the default [interpolation='linear']:
    NaN entries are skipped; the virtual index is [(n - 1) * q]. *)
Definition quantile (xs : list float) (q : float) : float :=
  let s := sorted (dropna xs) in
  let n := Z.of_nat (length s) in
  if n =? 0 then nan
  else
    let virtual := (F64.of_int64 (n - 1) * q)%float in
    match F64.value virtual with
    | Fin v =>
        let previous := Qfloor v in
        let next := Z.min (previous + 1) (n - 1) in
        let gamma := (virtual - F64.of_int64 previous)%float in
        lerp (at_ s previous) (at_ s next) gamma
    | _ => nan
    end.

End Series64.

(** ** Frames, scalars and exceptions *)

(** The frame that [pd.read_csv] returns.  With at least one data row
    the counters are [int64] columns and the spend is a [float64]
    column.  From a file with a header and no data row every column
    comes out with dtype [object], and stays so through
    [calculate_metrics] and [rank_campaigns]. *)
Inductive Frame (A : Type) : Type :=
| Table (rows : list A)
| HeaderOnly.

Arguments Table {A} rows.
Arguments HeaderOnly {A}.

Definition frame_rows {A : Type} (df : Frame A) : list A :=
  match df with
  | Table rows => rows
  | HeaderOnly => []
  end.

Definition frame_map {A B : Type} (f : list A -> list B) (df : Frame A)
  : Frame B :=
  match df with
  | Table rows => Table (f rows)
  | HeaderOnly => HeaderOnly
  end.

(** What [Series.sum()] returns: a numpy scalar for a numeric column,
    the Python int 0 for an empty [object] column. *)
Inductive Scalar : Type :=
| NpFloat64 (x : float)
| NpInt64 (z : Z)
| PyInt (z : Z).

Inductive Exception : Type :=
| ZeroDivisionError.

Inductive Result (A : Type) : Type :=
| Ok (a : A)
| Raise (e : Exception).

Arguments Ok {A} a.
Arguments Raise {A} e.

Definition scalar_float (s : Scalar) : float :=
  match s with
  | NpFloat64 x => x
  | NpInt64 z | PyInt z => F64.of_int64 z
  end.

(** [a / b] on scalars.  With a numpy scalar on either side the
    quotient is the binary64 one, infinite or NaN for a zero divisor;
    Python's own division of two ints raises on a zero divisor. *)
Definition truediv (a b : Scalar) : Result float :=
  match a, b with
  | PyInt _, PyInt 0 => Raise ZeroDivisionError
  | _, _ => Ok (scalar_float a / scalar_float b)%float
  end.

(** ** analyzer.py *)

Module Analyzer.

Record CampaignRecord : Type := {
  campaign_name : string;
  impressions : Z;
  clicks : Z;
  conversions : Z;
  spend : float
}.

Record CampaignMetrics : Type := {
  record : CampaignRecord;
  CTR : float;
  CPC : float;
  CPA : float;
  conversion_rate : float;
  ROI : float
}.

Record RankedCampaign : Type := {
  rank : Z;
  metrics : CampaignMetrics
}.

Definition avg_order_value : Z := 50.

(** Lines 66-84.  The quotient of two [int64] columns is the quotient
    of their conversions to [float64]; [revenue] is an [int64] column. *)
Definition derive_metrics (r : CampaignRecord) : CampaignMetrics :=
  let revenue := F64.wrap64 (conversions r * avg_order_value) in
  {| record := r;
     CTR := (F64.of_int64 (clicks r) / F64.of_int64 (impressions r) * 100)%float;
     CPC := (spend r / F64.of_int64 (clicks r))%float;
     CPA := (spend r / F64.of_int64 (conversions r))%float;
     conversion_rate :=
       (F64.of_int64 (conversions r) / F64.of_int64 (clicks r) * 100)%float;
     ROI := ((F64.of_int64 revenue - spend r) / spend r * 100)%float |}.

(** Lines 87-91. *)
Definition round_metrics (m : CampaignMetrics) : CampaignMetrics :=
  {| record := record m;
     CTR := F64.round (CTR m) 2;
     CPC := F64.round (CPC m) 2;
     CPA := F64.round (CPA m) 2;
     conversion_rate := F64.round (conversion_rate m) 2;
     ROI := F64.round (ROI m) 2 |}.

Definition calculate_metrics (df : list CampaignRecord) : list CampaignMetrics :=
  map (fun r => round_metrics (derive_metrics r)) df.

(** Lines 107-108: [sort_values] with the default kind, on the numbers
    that the ROI column denotes. *)
Definition rank_campaigns (df_metrics : list CampaignMetrics)
  : list RankedCampaign :=
  let df_ranked :=
    sort_values NpSort.argsort_quicksort (fun m => F64.value (ROI m)) false
                df_metrics in
  map (fun p => {| rank := fst p; metrics := snd p |})
      (combine (range 1 (Z.of_nat (length df_ranked) + 1)) df_ranked).

Inductive QuickWins : Type :=
| ScaleUp (rows : list RankedCampaign)
| NoQuickWins.

Record BudgetInsight : Type := {
  total_spend : Scalar;
  total_conversions : Scalar;
  avg_cpa : float;
  efficient_campaigns : list RankedCampaign;
  inefficient_campaigns : list RankedCampaign
}.

Record Recommendations : Type := {
  top_performers : list RankedCampaign;
  underperformers : list (RankedCampaign * list Finding);
  high_ctr_low_conv : list RankedCampaign;
  budget : BudgetInsight;
  quick_wins : QuickWins
}.

(** Lines 168-173. *)
Definition findings (df_ranked : list RankedCampaign) (row : RankedCampaign)
  : list Finding :=
  (if F64.ltb (CTR (metrics row))
              (Series64.median (map (fun x => CTR (metrics x)) df_ranked))
   then [LowCTR] else []) ++
  (if F64.ltb (conversion_rate (metrics row))
              (Series64.median
                 (map (fun x => conversion_rate (metrics x)) df_ranked))
   then [LowConversionRate] else []) ++
  (if F64.ltb (ROI (metrics row)) 0 then [NegativeROI] else []).

(** Lines 177-180. *)
Definition select_high_ctr_low_conv (df_ranked : list RankedCampaign)
  : list RankedCampaign :=
  let p75 := Series64.quantile (map (fun x => CTR (metrics x)) df_ranked)
                               0.75 in
  let med := Series64.median
               (map (fun x => conversion_rate (metrics x)) df_ranked) in
  filter (fun row =>
            F64.gtb (CTR (metrics row)) p75
            && F64.ltb (conversion_rate (metrics row)) med)
         df_ranked.

(** Line 192. *)
Definition sum_spend (df_ranked : Frame RankedCampaign) : Scalar :=
  match df_ranked with
  | Table rows =>
      NpFloat64 (Series64.sum (map (fun x => spend (record (metrics x))) rows))
  | HeaderOnly => PyInt 0
  end.

(** Line 193. *)
Definition sum_conversions (df_ranked : Frame RankedCampaign) : Scalar :=
  match df_ranked with
  | Table rows =>
      NpInt64
        (Series64.sum_int (map (fun x => conversions (record (metrics x))) rows))
  | HeaderOnly => PyInt 0
  end.

(** Lines 192-205.  The division of line 194 is the only operation of
    the function that can raise. *)
Definition budget_insight (df_ranked : Frame RankedCampaign)
  : Result BudgetInsight :=
  let total_spend := sum_spend df_ranked in
  let total_conversions := sum_conversions df_ranked in
  match truediv total_spend total_conversions with
  | Raise e => Raise e
  | Ok avg_cpa =>
      Ok {| total_spend := total_spend;
            total_conversions := total_conversions;
            avg_cpa := avg_cpa;
            efficient_campaigns :=
              filter (fun row => F64.ltb (CPA (metrics row)) avg_cpa)
                     (frame_rows df_ranked);
            inefficient_campaigns :=
              filter (fun row => F64.gtb (CPA (metrics row)) avg_cpa)
                     (frame_rows df_ranked) |}
  end.

(** Lines 219-222. *)
Definition select_quick_wins (df_ranked : list RankedCampaign)
  : list RankedCampaign :=
  let median_roi := Series64.median (map (fun x => ROI (metrics x)) df_ranked) in
  let median_spend :=
    Series64.median (map (fun x => spend (record (metrics x))) df_ranked) in
  filter (fun row =>
            F64.gtb (ROI (metrics row)) median_roi
            && F64.ltb (spend (record (metrics row))) median_spend)
         df_ranked.

(** Lines 224-229. *)
Definition report_quick_wins (rows : list RankedCampaign) : QuickWins :=
  match rows with
  | [] => NoQuickWins
  | _ => ScaleUp rows
  end.

(** The sections in the order of the function: an exception raised in
    the fourth one leaves the function, after the first three have been
    printed and before the fifth is reached. *)
Definition generate_recommendations (df_ranked : Frame RankedCampaign)
  : Result Recommendations :=
  let rows := frame_rows df_ranked in
  let top := head 3 rows in
  let under := map (fun row => (row, findings rows row)) (tail 3 rows) in
  let high := select_high_ctr_low_conv rows in
  match budget_insight df_ranked with
  | Raise e => Raise e
  | Ok b =>
      Ok {| top_performers := top;
            underperformers := under;
            high_ctr_low_conv := high;
            budget := b;
            quick_wins := report_quick_wins (select_quick_wins rows) |}
  end.

(** The pipeline of [main], up to the report. *)
Definition analyze (df : Frame CampaignRecord) : Result Recommendations :=
  let df_metrics := frame_map calculate_metrics df in
  let df_ranked := frame_map rank_campaigns df_metrics in
  generate_recommendations df_ranked.

Definition mk (name : string) (i c v : Z) (s : float) : CampaignRecord :=
  {| campaign_name := name; impressions := i; clicks := c;
     conversions := v; spend := s |}.

End Analyzer.

(** * Vocabulary of the properties *)

(** ** Vocabulary of the properties with exact arithmetic *)

Definition campaign_A : CampaignRecord := mk "A" 1000 100 10 200.
Definition campaign_B : CampaignRecord := mk "B" 1000 50 1 300.

(** What numpy promises of [argsort] on a key array, whatever the kind:
    the result lists every position once, in ascending order of its key. *)
Definition argsort_ok (ks : list fl) (idx : list nat) : Prop :=
  Permutation idx (seq 0 (length ks)) /\
  StronglySorted (fun i j => Fl.leb (nth i ks NaN) (nth j ks NaN) = true) idx.

(** The key array that a descending [nargsort] hands to [argsort]: the
    non-NaN keys, reversed. *)
Definition descending_keys (items : list fl) : list fl :=
  rev (Series.dropna items).

(** Descending order with the NaN keys last. *)
Definition desc_nan_last (x y : fl) : Prop :=
  Fl.isnan y = true \/ Fl.leb y x = true.

Definition roi_of (row : RankedCampaign) : fl := ROI (metrics row).

Definition ranked_names (out : list RankedCampaign) : list string :=
  map (fun row => campaign_name (record (metrics row))) out.

(** Rows with equal ROI keep the order they had in the input. *)
Definition keeps_tie_order (df : list CampaignMetrics)
  (out : list RankedCampaign) : Prop :=
  forall x : fl,
    filter (fun m => Fl.eqb (ROI m) x) (map metrics out) =
    filter (fun m => Fl.eqb (ROI m) x) df.

Definition numbered (prefix : string) (n : nat) : string :=
  (prefix ++ String (Ascii.ascii_of_nat (65 + n)) EmptyString)%string.

(** Eighteen campaigns with the same counters, named TA .. TR. *)
Definition tied_campaigns : list CampaignMetrics :=
  calculate_metrics
    (map (fun n => mk (numbered "T" n) 1000 100 10 200) (seq 0 18)).

Definition campaign_P : CampaignRecord := mk "P" 100000 1000 1 30000.
Definition campaign_Q : CampaignRecord := mk "Q" 100000 1000 1 29999.

(** The ranking that the unrounded metrics would give. *)
Definition rank_full_precision (df : list CampaignRecord)
  : list RankedCampaign :=
  rank_campaigns (map derive_metrics df).

Definition quick_win_rows (q : QuickWins) : list RankedCampaign :=
  match q with
  | ScaleUp rows => rows
  | NoQuickWins => []
  end.

Definition idle_campaign : CampaignRecord := mk "idle" 1000 0 0 0.

(** ** Vocabulary of the properties on binary64 numbers *)

(** An integer that [float64] holds exactly. *)
Definition exact_int (z : Z) : Prop := - 2 ^ 53 < z < 2 ^ 53.

(** The mantissa and the exponent of the float of a positive integer
    below 2^53: the integer shifted left to 53 binary digits. *)
Definition int_mantissa (p : positive) : positive :=
  match (53 - Z.pos (digits2_pos p))%Z with
  | Z.pos k => Pos.iter xO p k
  | _ => p
  end.

Definition int_exponent (p : positive) : Z := Z.pos (digits2_pos p) - 53.

(** What IEEE 754 gives for [num / z] when [z] is a zero with sign bit
    [s]: NaN when [num] is a zero or NaN, otherwise the infinity whose
    sign is the sign of [num], reversed when the zero is negative. *)
Definition quotient_by_zero (num : float) (s : bool) : float :=
  match Prim2SF num with
  | S754_zero _ | S754_nan => nan
  | S754_infinity sn | S754_finite sn _ _ =>
      if xorb sn s then neg_infinity else infinity
  end.

(** The same for a numerator that is an integer, given by its
    comparison with 0. *)
Definition signed_quotient (c : comparison) (s : bool) : float :=
  match c with
  | Eq => nan
  | Gt => if s then neg_infinity else infinity
  | Lt => if s then infinity else neg_infinity
  end.

(** The float of the integer [k]; a zero takes the sign bit [s]. *)
Definition int_float (k : Z) (s : bool) : float :=
  if k =? 0 then (if s then neg_zero else zero) else F64.of_int64 k.

(** What rounding to two decimals does to the float [x], giving [y].
    With [p] the binary64 product [x * 100]: when [p] is finite and
    below 2^52 in magnitude, [y] is the binary64 quotient by 100 of an
    integer [k] at most one half away from [p], the even one when [p]
    is exactly half way between two integers; otherwise [y] is the
    binary64 quotient [p / 100]. *)
Definition rounded_to_cents (x y : float) : Prop :=
  let p := (x * 100)%float in
  match F64.value p with
  | Fin q =>
      if Qle_bool (inject_Z (2 ^ 52)) (Qabs q)
      then y = (p / 100)%float
      else exists k : Z,
          (Qabs (inject_Z k - q) <= 1 # 2)%Q /\
          ((Qabs (inject_Z k - q) == 1 # 2)%Q -> Z.even k = true) /\
          y = (int_float k (F64.signbit p) / 100)%float
  | _ => y = (p / 100)%float
  end.


(** Each metric of the returned row [m] is the rounding of the metric
    computed for [r]. *)
Definition rounded_metrics (r : Analyzer.CampaignRecord)
  (m : Analyzer.CampaignMetrics) : Prop :=
  let d := Analyzer.derive_metrics r in
  rounded_to_cents (Analyzer.CTR d) (Analyzer.CTR m) /\
  rounded_to_cents (Analyzer.CPC d) (Analyzer.CPC m) /\
  rounded_to_cents (Analyzer.CPA d) (Analyzer.CPA m) /\
  rounded_to_cents (Analyzer.conversion_rate d) (Analyzer.conversion_rate m) /\
  rounded_to_cents (Analyzer.ROI d) (Analyzer.ROI m).

(** The columns of a ranked frame. *)
Definition ctr64 (row : Analyzer.RankedCampaign) : float :=
  Analyzer.CTR (Analyzer.metrics row).
Definition rate64 (row : Analyzer.RankedCampaign) : float :=
  Analyzer.conversion_rate (Analyzer.metrics row).
Definition cpa64 (row : Analyzer.RankedCampaign) : float :=
  Analyzer.CPA (Analyzer.metrics row).
Definition roi64 (row : Analyzer.RankedCampaign) : float :=
  Analyzer.ROI (Analyzer.metrics row).
Definition names64 (out : list Analyzer.RankedCampaign) : list string :=
  map (fun row => Analyzer.campaign_name (Analyzer.record (Analyzer.metrics row)))
      out.

(** The number that the ROI of a ranked row denotes. *)
Definition roi_value (row : Analyzer.RankedCampaign) : fl :=
  F64.value (roi64 row).


Definition ascending (s : list float) : Prop :=
  StronglySorted (fun a b => F64.leb a b = true) s.

(** [s] holds the values of the column [xs] that are not NaN, in
    ascending order. *)
Definition sorted_values (xs s : list float) : Prop :=
  Permutation s (filter (fun x => negb (F64.isnan x)) xs) /\ ascending s.

Definition item (s : list float) (i : Z) : float := nth (Z.to_nat i) s nan.

(** The median of the sorted values [s]: the middle one, or the mean of
    the two middle ones. *)
Definition middle (s : list float) : float :=
  let n := Z.of_nat (length s) in
  if n =? 0 then nan
  else if Z.even n
       then ((item s (n / 2 - 1) + item s (n / 2)) / 2)%float
       else item s (n / 2).

(** The [p]-quantile of the sorted values [s] by linear interpolation:
    the value at the fractional position [h = (n - 1) * p], between the
    neighbours [a] and [b] of that position, at the fraction [g] of the
    way from [a] to [b]; from [b] backwards in the second half of the
    way. *)
Definition interpolate (s : list float) (p : float) : float :=
  let n := Z.of_nat (length s) in
  if n =? 0 then nan
  else
    let h := (F64.of_int64 (n - 1) * p)%float in
    match F64.value h with
    | Fin hq =>
        let lo := Qfloor hq in
        let hi := Z.min (lo + 1) (n - 1) in
        let a := item s lo in
        let b := item s hi in
        let g := (h - F64.of_int64 lo)%float in
        if F64.leb 0.5 g
        then (b - (b - a) * (1 - g))%float
        else (a + (b - a) * g)%float
    | _ => nan
    end.

Definition quick_win_rows64 (q : Analyzer.QuickWins)
  : list Analyzer.RankedCampaign :=
  match q with
  | Analyzer.ScaleUp rows => rows
  | Analyzer.NoQuickWins => []
  end.

(** The report on a frame without rows. *)
Definition no_data64 : Analyzer.Recommendations :=
  {| Analyzer.top_performers := [];
     Analyzer.underperformers := [];
     Analyzer.high_ctr_low_conv := [];
     Analyzer.budget :=
       {| Analyzer.total_spend := NpFloat64 0;
          Analyzer.total_conversions := NpInt64 0;
          Analyzer.avg_cpa := nan;
          Analyzer.efficient_campaigns := [];
          Analyzer.inefficient_campaigns := [] |};
     Analyzer.quick_wins := Analyzer.NoQuickWins |}.

(** Campaigns A and B of the concrete scenario. *)
Definition example_A : Analyzer.CampaignRecord :=
  Analyzer.mk "A" 1000 100 10 200.

(** A spend of 23 on 40 clicks: a cost per click of 0.575. *)
Definition example_T : Analyzer.CampaignRecord :=
  Analyzer.mk "T" 1000 40 1 23.


(** No clicks; no spend; a spend of negative zero. *)
Definition example_Z : Analyzer.CampaignRecord :=
  Analyzer.mk "Z" 1000 0 0 200.
Definition example_F : Analyzer.CampaignRecord :=
  Analyzer.mk "F" 1000 100 1 0.
Definition example_N : Analyzer.CampaignRecord :=
  Analyzer.mk "N" 1000 100 1 neg_zero.

(** Four campaigns with click-through rates 40, 30, 20, 10 and
    conversion rates 1, 2, 5, 10. *)
Definition portfolio : list Analyzer.CampaignRecord :=
  [ Analyzer.mk "H" 1000 400 4 100;
    Analyzer.mk "I" 1000 300 6 200;
    Analyzer.mk "J" 1000 200 10 300;
    Analyzer.mk "K" 1000 100 10 400 ].

Definition ranked_portfolio : list Analyzer.RankedCampaign :=
  Analyzer.rank_campaigns (Analyzer.calculate_metrics portfolio).





(** A row is ranked before another. *)
Definition rank_lt64 (a b : Analyzer.RankedCampaign) : Prop :=
  Analyzer.rank a < Analyzer.rank b.

(** The rows of the underperformers section. *)
Definition bottom_rows64 (R : Analyzer.Recommendations)
  : list Analyzer.RankedCampaign :=
  map fst (Analyzer.underperformers R).

(** ** Vocabulary for the proof that numpy's quicksort sorts *)

Module SortSpec.

(** [x] is not after [y] in numpy's order. *)
Definition nle (x y : fl) : Prop := NpSort.LT y x = false.

Definition inb (a : list nat) (p : Z) : Prop := 0 <= p < Z.of_nat (length a).

(** [a'] comes from [a] by exchanging cells of the segment [l..r]. *)
Inductive swaps (l r : Z) : list nat -> list nat -> Prop :=
| swaps_refl a : swaps l r a a
| swaps_step a a' p q :
    inb a p -> inb a q -> l <= p <= r -> l <= q <= r ->
    swaps l r (NpSort.swap a p q) a' -> swaps l r a a'.

Section WithKeys.

Variable v : list fl.

(** The key of the cell [p] of the array [a]. *)
Definition K (a : list nat) (p : Z) : fl := NpSort.key v (NpSort.get a p).

Definition seg_sorted (a : list nat) (l r : Z) : Prop :=
  forall i j, l <= i -> i < j -> j <= r -> nle (K a i) (K a j).

(** The insertion loop, seen on the array in which the value being
    inserted fills the free cell: it exchanges the value with its left
    neighbour while that neighbour is larger. *)
Fixpoint bubble (fuel : nat) (a : list nat) (pl pj : Z) : list nat :=
  match fuel with
  | O => a
  | S f =>
      if (pj >? pl) && NpSort.LT (K a pj) (K a (pj - 1))
      then bubble f (NpSort.swap a (pj - 1) pj) pl (pj - 1)
      else a
  end.

(** Sorted on [pl..pi] but for the cell [pj], which may be smaller than
    the cells on its left. *)
Definition almost_sorted (a : list nat) (pl pi pj : Z) : Prop :=
  forall i j, pl <= i -> i < j -> j <= pi -> j <> pj -> nle (K a i) (K a j).

(** The sift-down loop, seen on the array in which the value being
    sifted fills the free cell: it exchanges the value with its larger
    child while that child is larger. *)
Fixpoint sift_sw (fuel : nat) (a : list nat) (pl n i j : Z) : list nat :=
  match fuel with
  | O => a
  | S f =>
      if j <=? n then
        let j :=
          if (j <? n) && NpSort.LT (K a (pl + j - 1)) (K a (pl + (j + 1) - 1))
          then j + 1 else j in
        if NpSort.LT (K a (pl + i - 1)) (K a (pl + j - 1))
        then sift_sw f (NpSort.swap a (pl + i - 1) (pl + j - 1)) pl n j (j + j)
        else a
      else a
  end.

(** One-based view of the segment that starts at [pl]. *)
Definition Hk (pl : Z) (a : list nat) (k : Z) : fl := K a (pl + k - 1).

(** The node [k] is not before its children, in a heap of [m] nodes. *)
Definition heap_at (pl : Z) (a : list nat) (m k : Z) : Prop :=
  forall c, c = 2 * k \/ c = 2 * k + 1 -> c <= m ->
            nle (Hk pl a c) (Hk pl a k).

(** A heap on the nodes [lo..m] but for the node [i], whose children
    are still not after its parent. *)
Definition almost_heap (pl : Z) (a : list nat) (lo m i : Z) : Prop :=
  (forall k, lo <= k <= m -> k <> i -> heap_at pl a m k) /\
  (forall p c, lo <= p -> i = 2 * p \/ i = 2 * p + 1 ->
               c = 2 * i \/ c = 2 * i + 1 -> c <= m ->
               nle (Hk pl a c) (Hk pl a p)).

(** The segments that still wait to be sorted: the current one and the
    ones on the stack. *)
Definition pending (pl pr : Z) (stack : list (Z * Z * Z)) : list (Z * Z) :=
  (pl, pr) :: map fst stack.

Definition apart (s t : Z * Z) : Prop := snd s < fst t \/ snd t < fst s.

Definition segments_ok (n : Z) (P : list (Z * Z)) : Prop :=
  Forall (fun s => 0 <= fst s /\ snd s < n /\ fst s <= snd s + 1) P /\
  ForallOrdPairs apart P.

(** Two cells are in order as soon as no waiting segment holds both. *)
Definition ordered_but (n : Z) (a : list nat) (P : list (Z * Z)) : Prop :=
  Z.of_nat (length a) = n /\
  forall i j, 0 <= i -> i < j -> j < n ->
              (forall s, In s P -> ~ (fst s <= i /\ j <= snd s)) ->
              nle (K a i) (K a j).

Fixpoint cost (P : list (Z * Z)) : Z :=
  match P with
  | [] => 0
  | s :: P' => 2 * (snd s - fst s + 1) + 1 + cost P'
  end.

End WithKeys.

End SortSpec.

Import SortSpec.

(** * Properties: order, ranking and the place of the rounding *)

(** ** Rounding with exact arithmetic *)

Lemma Qsign_Eq (q : Q) : Fl.Qsign q = Eq <-> (q == 0)%Q.
Proof.
  unfold Fl.Qsign, Qeq; destruct q as [n d]; simpl.
  rewrite Z.compare_eq_iff. lia.
Qed.

Lemma Qsign_inject_Z (z : Z) : Fl.Qsign (inject_Z z) = (z ?= 0).
Proof. reflexivity. Qed.

Lemma inject_Z_nonzero (z : Z) : z <> 0 -> ~ (inject_Z z == 0)%Q.
Proof. unfold Qeq; simpl. lia. Qed.

(** [rint] and [round] depend on the value of a rational only, not on the
    fraction that represents it. *)
Lemma rint_compat (q q' : Q) : (q == q')%Q -> Fl.rint q = Fl.rint q'.
Proof.
  intros H. unfold Fl.rint.
  rewrite (Qfloor_comp _ _ H).
  assert (E : ((q - inject_Z (Qfloor q') ?= 1 # 2) =
               (q' - inject_Z (Qfloor q') ?= 1 # 2))%Q).
  { apply Qcompare_comp; [rewrite H|]; reflexivity. }
  rewrite E. reflexivity.
Qed.

(** [rint] is within one half of its argument, and goes to the even
    neighbour when it is exactly one half away. *)
Lemma rint_spec (q : Q) :
  (Qabs (inject_Z (Fl.rint q) - q) <= 1 # 2)%Q /\
  ((Qabs (inject_Z (Fl.rint q) - q) == 1 # 2)%Q -> Z.even (Fl.rint q) = true).
Proof.
  unfold Fl.rint.
  pose proof (Qfloor_le q) as Hlo.
  pose proof (Qlt_floor q) as Hhi.
  set (f := Qfloor q) in *.
  rewrite inject_Z_plus in Hhi. change (inject_Z 1) with 1%Q in Hhi.
  destruct (Qcompare_spec (q - inject_Z f) (1 # 2)) as [E | L | G].
  - destruct (Z.even f) eqn:Ev.
    + split; [|auto].
      apply Qabs_Qle_condition. split; lra.
    + split.
      * rewrite inject_Z_plus. change (inject_Z 1) with 1%Q.
        apply Qabs_Qle_condition. split; lra.
      * intros _. rewrite Z.even_add, Ev. reflexivity.
  - split.
    + apply Qabs_Qle_condition. split; lra.
    + intros Habs. exfalso.
      rewrite Qabs_neg in Habs by lra. lra.
  - split.
    + rewrite inject_Z_plus. change (inject_Z 1) with 1%Q.
      apply Qabs_Qle_condition. split; lra.
    + intros Habs. exfalso.
      rewrite inject_Z_plus in Habs. change (inject_Z 1) with 1%Q in Habs.
      rewrite Qabs_pos in Habs by lra. lra.
Qed.

(** Rounding twice is rounding once. *)
Lemma rint_inject_Z (k : Z) : Fl.rint (inject_Z k) = k.
Proof.
  unfold Fl.rint. rewrite Qfloor_Z.
  destruct (Qcompare_spec (inject_Z k - inject_Z k) (1 # 2)) as [E | L | G];
    try reflexivity; exfalso; lra.
Qed.

Lemma round_idempotent (x : fl) (d : nat) :
  Fl.round (Fl.round x d) d = Fl.round x d.
Proof.
  destruct x as [q | | |]; try reflexivity.
  unfold Fl.round.
  set (p := inject_Z (10 ^ Z.of_nat d)).
  set (k := Fl.rint (q * p)).
  f_equal. apply Qred_complete.
  assert (Hp : ~ (p == 0)%Q).
  { unfold p. apply inject_Z_nonzero.
    apply Z.pow_nonzero; lia. }
  rewrite (rint_compat (Qred (inject_Z k / p) * p) (inject_Z k)).
  - rewrite rint_inject_Z. reflexivity.
  - rewrite Qred_correct. field. exact Hp.
Qed.

(** ** Lists: masks, positions and sortedness *)

Section ListFacts.

Context {A : Type}.

Lemma select_map_filter (p : A -> bool) (xs : list A) :
  select (map p xs) xs = filter p xs.
Proof.
  induction xs as [| x xs IH]; simpl; [reflexivity|].
  destruct (p x); now rewrite IH.
Qed.

Lemma select_partition (m : list bool) (xs : list A) :
  length m = length xs ->
  Permutation (select (map negb m) xs ++ select m xs) xs.
Proof.
  revert xs. induction m as [| b m IH]; intros [| x xs] Hlen;
    simpl in *; try discriminate; [constructor|].
  injection Hlen as Hlen. specialize (IH xs Hlen).
  destruct b; simpl.
  - symmetry. apply Permutation_cons_app. now symmetry.
  - now constructor.
Qed.

(** The positions kept by a mask computed from the column itself point
    at the kept values. *)
Lemma select_positions (p : A -> bool) (pre ks : list A) :
  Forall2 (fun i k => nth_error (pre ++ ks) i = Some k)
          (select (map p ks) (seq (length pre) (length ks)))
          (select (map p ks) ks).
Proof.
  revert pre. induction ks as [| k ks IH]; intros pre; simpl.
  - constructor.
  - specialize (IH (pre ++ [k])).
    rewrite length_app, <- app_assoc in IH. simpl in IH.
    rewrite Nat.add_1_r in IH.
    destruct (p k); [|exact IH].
    constructor; [|exact IH].
    rewrite nth_error_app2 by lia. now rewrite Nat.sub_diag.
Qed.

Lemma map_nth_seq (d : A) (l : list A) :
  map (fun i => nth i l d) (seq 0 (length l)) = l.
Proof.
  induction l as [| x l IH]; simpl; [reflexivity|].
  f_equal. rewrite <- seq_shift, map_map. exact IH.
Qed.

Lemma take_rows_all (df : list A) : take_rows df (seq 0 (length df)) = df.
Proof.
  unfold take_rows.
  induction df as [| x df IH]; simpl; [reflexivity|].
  f_equal. rewrite <- seq_shift, flat_map_concat_map, map_map,
    <- flat_map_concat_map. exact IH.
Qed.

Lemma take_rows_Permutation (df : list A) (idx : list nat) :
  Permutation idx (seq 0 (length df)) -> Permutation (take_rows df idx) df.
Proof.
  intros H. rewrite <- (take_rows_all df) at 2.
  unfold take_rows. now apply Permutation_flat_map.
Qed.

Lemma take_rows_map {B : Type} (f : A -> B) (d : B) (df : list A)
  (idx : list nat) :
  Forall (fun i => (i < length df)%nat) idx ->
  map f (take_rows df idx) = map (fun i => nth i (map f df) d) idx.
Proof.
  unfold take_rows.
  induction 1 as [| i idx Hi _ IH]; simpl; [reflexivity|].
  rewrite map_app, IH. f_equal.
  destruct (nth_error df i) as [x|] eqn:E.
  - simpl. f_equal. symmetry. apply nth_error_nth.
    now rewrite nth_error_map, E.
  - apply nth_error_None in E. lia.
Qed.

Lemma StronglySorted_app (R : A -> A -> Prop) (l1 l2 : list A) :
  StronglySorted R l1 -> StronglySorted R l2 ->
  (forall x y, In x l1 -> In y l2 -> R x y) ->
  StronglySorted R (l1 ++ l2).
Proof.
  intros H1 H2 H12. induction H1 as [| x l1 H1 IH Hx]; simpl; [exact H2|].
  constructor.
  - apply IH. intros a b Ha Hb. apply H12; [now right | exact Hb].
  - apply Forall_app. split; [exact Hx|].
    apply Forall_forall. intros y Hy. apply H12; [now left | exact Hy].
Qed.

Lemma StronglySorted_rev (R : A -> A -> Prop) (l : list A) :
  StronglySorted R l -> StronglySorted (fun x y => R y x) (rev l).
Proof.
  induction 1 as [| x l H IH Hx]; simpl; [constructor|].
  apply StronglySorted_app.
  - exact IH.
  - repeat constructor.
  - intros a b Ha [<- | []]. rewrite <- in_rev in Ha.
    rewrite Forall_forall in Hx. now apply Hx.
Qed.

Lemma StronglySorted_weaken (R R' : A -> A -> Prop) (l : list A) :
  (forall x y, In x l -> In y l -> R x y -> R' x y) ->
  StronglySorted R l -> StronglySorted R' l.
Proof.
  intros Himp H. induction H as [| x l H IH Hx]; [constructor|].
  constructor.
  - apply IH. intros a b Ha Hb. apply Himp; now right.
  - rewrite Forall_forall in *. intros y Hy.
    apply Himp; [now left | now right | now apply Hx].
Qed.

(** In a strongly sorted list an earlier row is related to a later one. *)
Lemma StronglySorted_nth (R : A -> A -> Prop) (l : list A) (i j : nat)
  (x y : A) :
  StronglySorted R l ->
  nth_error l i = Some x -> nth_error l j = Some y -> (i < j)%nat ->
  R x y.
Proof.
  intros H. revert i j. induction H as [| a l H IH Ha]; intros i j Hi Hj Hlt.
  - destruct i; discriminate.
  - destruct j as [| j]; [lia|].
    destruct i as [| i]; simpl in *.
    + injection Hi as <-. rewrite Forall_forall in Ha.
      apply Ha. eapply nth_error_In; eassumption.
    + apply (IH i j); [assumption.. | lia].
Qed.

End ListFacts.

Lemma StronglySorted_map {A B : Type} (R : B -> B -> Prop) (f : A -> B)
  (l : list A) :
  StronglySorted (fun x y => R (f x) (f y)) l -> StronglySorted R (map f l).
Proof.
  induction 1 as [| x l H IH Hx]; simpl; constructor; [exact IH|].
  now apply Forall_map.
Qed.

Lemma Forall2_nth_error_eq {A B : Type} (P : A -> B -> Prop)
  (l : list A) (k : list B) (j : nat) (b : B) :
  Forall2 P l k -> nth_error k j = Some b ->
  exists a, nth_error l j = Some a /\ P a b.
Proof.
  intros H. revert j. induction H as [| x y l k Hxy H IH]; intros j Hj.
  - destruct j; discriminate.
  - destruct j as [| j]; simpl in *.
    + injection Hj as <-. eauto.
    + now apply IH.
Qed.

Lemma Forall2_rev {A B : Type} (P : A -> B -> Prop) (l : list A) (k : list B) :
  Forall2 P l k -> Forall2 P (rev l) (rev k).
Proof.
  induction 1 as [| x y l k Hxy H IH]; simpl; [constructor|].
  apply Forall2_app; [exact IH | now repeat constructor].
Qed.

Lemma Forall2_length_eq {A B : Type} (P : A -> B -> Prop)
  (l : list A) (k : list B) : Forall2 P l k -> length l = length k.
Proof. induction 1; simpl; congruence. Qed.

(** ** numpy's quicksort sorts *)

(** *** numpy's order on floats *)

Lemma Qlt_bool_false (a b : Q) : Fl.Qlt_bool a b = false <-> (b <= a)%Q.
Proof.
  unfold Fl.Qlt_bool. rewrite negb_false_iff. apply Qle_bool_iff.
Qed.

Lemma Qlt_bool_true (a b : Q) : Fl.Qlt_bool a b = true <-> (a < b)%Q.
Proof.
  unfold Fl.Qlt_bool. rewrite negb_true_iff. split.
  - intros H. destruct (Qlt_le_dec a b) as [L | L]; [exact L|].
    apply Qle_bool_iff in L. congruence.
  - intros H. destruct (Qle_bool b a) eqn:E; [|reflexivity].
    apply Qle_bool_iff in E. lra.
Qed.

Lemma nle_refl (x : fl) : nle x x.
Proof.
  unfold nle, NpSort.LT. destruct x as [a | | |]; simpl; try reflexivity.
  rewrite orb_false_r. apply Qlt_bool_false. lra.
Qed.

Lemma nle_total (x y : fl) : nle x y \/ nle y x.
Proof.
  unfold nle, NpSort.LT.
  destruct x as [a | | |], y as [b | | |]; simpl; auto.
  rewrite !orb_false_r.
  destruct (Qlt_le_dec a b) as [L | L].
  - left. apply Qlt_bool_false. lra.
  - right. now apply Qlt_bool_false.
Qed.

Lemma nle_trans (x y z : fl) : nle x y -> nle y z -> nle x z.
Proof.
  unfold nle, NpSort.LT.
  destruct x as [a | | |], y as [b | | |], z as [c | | |]; simpl;
    try discriminate; auto.
  rewrite !orb_false_r, !Qlt_bool_false. lra.
Qed.

Lemma LT_nle (x y : fl) : NpSort.LT x y = true -> nle x y.
Proof.
  unfold nle, NpSort.LT.
  destruct x as [a | | |], y as [b | | |]; simpl; try discriminate; auto.
  rewrite !orb_false_r, Qlt_bool_true, Qlt_bool_false. lra.
Qed.

(** On numbers, numpy's order is [<=]. *)
Lemma nle_leb (x y : fl) :
  Fl.isnan x = false -> Fl.isnan y = false -> nle x y -> Fl.leb x y = true.
Proof.
  unfold nle, NpSort.LT.
  destruct x as [a | | |], y as [b | | |]; simpl; try discriminate; auto.
  rewrite orb_false_r, Qlt_bool_false. intros _ _. apply Qle_bool_iff.
Qed.

(** *** Arrays of positions *)

Lemma set_nth_length (a : list nat) (n x : nat) :
  length (NpSort.set_nth a n x) = length a.
Proof.
  revert n. induction a as [| h t IH]; intros [| n]; simpl; auto.
Qed.

Lemma set_length (a : list nat) (p : Z) (x : nat) :
  length (NpSort.set a p x) = length a.
Proof.
  unfold NpSort.set. destruct (p <? 0); [reflexivity|].
  apply set_nth_length.
Qed.

Lemma set_nth_nth (a : list nat) (n m x : nat) :
  (n < length a)%nat ->
  nth m (NpSort.set_nth a n x) 0%nat = if Nat.eqb m n then x else nth m a 0%nat.
Proof.
  revert n m. induction a as [| h t IH]; intros [| n] [| m] Hn; simpl in *;
    try lia; auto.
  apply IH. lia.
Qed.

Lemma get_set (a : list nat) (p q : Z) (x : nat) :
  inb a p -> 0 <= q ->
  NpSort.get (NpSort.set a p x) q = if q =? p then x else NpSort.get a q.
Proof.
  unfold inb, NpSort.get, NpSort.set. intros Hp Hq.
  destruct (Z.ltb_spec p 0) as [L | L]; [lia|].
  rewrite set_nth_nth by lia.
  destruct (Z.eqb_spec q p) as [E | E].
  - subst. now rewrite Nat.eqb_refl.
  - destruct (Nat.eqb_spec (Z.to_nat q) (Z.to_nat p)) as [E' | E'];
      [lia | reflexivity].
Qed.

Lemma swap_length (a : list nat) (p q : Z) :
  length (NpSort.swap a p q) = length a.
Proof. unfold NpSort.swap. now rewrite !set_length. Qed.

Lemma get_swap (a : list nat) (p q r : Z) :
  inb a p -> inb a q -> 0 <= r ->
  NpSort.get (NpSort.swap a p q) r =
  if r =? q then NpSort.get a p
  else if r =? p then NpSort.get a q else NpSort.get a r.
Proof.
  intros Hp Hq Hr. unfold NpSort.swap.
  rewrite get_set; [|unfold inb in *; rewrite set_length; lia | lia].
  destruct (r =? q); [reflexivity|].
  now rewrite get_set.
Qed.

Lemma get_In (a : list nat) (p : Z) : inb a p -> In (NpSort.get a p) a.
Proof. unfold inb, NpSort.get. intros H. apply nth_In. lia. Qed.

Lemma In_get (a : list nat) (x : nat) :
  In x a -> exists p, inb a p /\ NpSort.get a p = x.
Proof.
  intros H. apply (In_nth _ _ 0%nat) in H as (n & Hn & E).
  exists (Z.of_nat n). unfold inb, NpSort.get. rewrite Nat2Z.id.
  split; [lia | exact E].
Qed.

Lemma swaps_trans l r a b c : swaps l r a b -> swaps l r b c -> swaps l r a c.
Proof.
  induction 1 as [| a b p q Hp Hq Hlp Hlq H IH]; intros Hbc; [exact Hbc|].
  apply (swaps_step l r a c p q); auto.
Qed.

Lemma swaps_one l r a p q :
  inb a p -> inb a q -> l <= p <= r -> l <= q <= r ->
  swaps l r a (NpSort.swap a p q).
Proof. intros. apply (swaps_step l r a _ p q); auto. constructor. Qed.

Lemma swaps_widen l r l' r' a b :
  l' <= l -> r <= r' -> swaps l r a b -> swaps l' r' a b.
Proof.
  intros Hl Hr. induction 1 as [| a b p q Hp Hq Hlp Hlq H IH]; [constructor|].
  apply (swaps_step l' r' a b p q); auto; lia.
Qed.

Lemma swaps_length l r a b : swaps l r a b -> length b = length a.
Proof.
  induction 1 as [| a b p q Hp Hq Hlp Hlq H IH]; [reflexivity|].
  now rewrite IH, swap_length.
Qed.

Lemma swaps_outside l r a b p :
  swaps l r a b -> 0 <= p -> p < l \/ r < p -> NpSort.get b p = NpSort.get a p.
Proof.
  induction 1 as [| a b x y Hx Hy Hlx Hly H IH]; intros H0 Hp; [reflexivity|].
  rewrite IH by assumption. rewrite get_swap by assumption.
  destruct (Z.eqb_spec p y); [lia|]. destruct (Z.eqb_spec p x); [lia|].
  reflexivity.
Qed.

(** Every cell of the segment holds afterwards what some cell of the
    segment held before. *)
Lemma swaps_inside l r a b p :
  swaps l r a b -> inb a p -> l <= p <= r ->
  exists q, inb a q /\ l <= q <= r /\ NpSort.get b p = NpSort.get a q.
Proof.
  induction 1 as [| a b x y Hx Hy Hlx Hly H IH]; intros Hp Hlp.
  - exists p. auto.
  - destruct IH as (q & Hq & Hlq & E).
    { unfold inb in *. now rewrite swap_length. }
    { assumption. }
    assert (Hq' : inb a q) by (unfold inb in *; now rewrite swap_length in Hq).
    rewrite E, get_swap by (try assumption; unfold inb in *; lia).
    destruct (Z.eqb_spec q y); [exists x; auto|].
    destruct (Z.eqb_spec q x); [exists y; auto|].
    exists q. auto.
Qed.

Lemma swaps_In l r a b x : swaps l r a b -> In x a -> In x b.
Proof.
  induction 1 as [| a b p q Hp Hq Hlp Hlq H IH]; intros Hx; [exact Hx|].
  apply IH. apply In_get in Hx as (s & Hs & <-).
  assert (Hs' : inb (NpSort.swap a p q) p)
    by (unfold inb in *; now rewrite swap_length).
  assert (Hq' : inb (NpSort.swap a p q) q)
    by (unfold inb in *; now rewrite swap_length).
  assert (Hs'' : inb (NpSort.swap a p q) s)
    by (unfold inb in *; now rewrite swap_length).
  destruct (Z.eq_dec s p) as [-> | Np].
  - replace (NpSort.get a p) with (NpSort.get (NpSort.swap a p q) q).
    + now apply get_In.
    + rewrite get_swap by (try assumption; unfold inb in *; lia).
      now rewrite Z.eqb_refl.
  - destruct (Z.eq_dec s q) as [-> | Nq].
    + replace (NpSort.get a q) with (NpSort.get (NpSort.swap a p q) p).
      * now apply get_In.
      * rewrite get_swap by (try assumption; unfold inb in *; lia).
        destruct (Z.eqb_spec p q); [congruence|]. now rewrite Z.eqb_refl.
    + replace (NpSort.get a s) with (NpSort.get (NpSort.swap a p q) s).
      * now apply get_In.
      * rewrite get_swap by (try assumption; unfold inb in *; lia).
        destruct (Z.eqb_spec s q); [congruence|].
        destruct (Z.eqb_spec s p); [congruence|]. reflexivity.
Qed.

Lemma list_ext_get (a b : list nat) :
  length a = length b ->
  (forall p, inb a p -> NpSort.get a p = NpSort.get b p) -> a = b.
Proof.
  intros Hlen H. apply (nth_ext _ _ 0%nat 0%nat Hlen).
  intros n Hn. specialize (H (Z.of_nat n)).
  unfold inb, NpSort.get in H. rewrite Nat2Z.id in H. apply H. lia.
Qed.

Section SortProofs.

Variable v : list fl.
Local Abbreviation K := (SortSpec.K v).
Local Abbreviation seg_sorted := (SortSpec.seg_sorted v).
Local Abbreviation bubble := (SortSpec.bubble v).
Local Abbreviation almost_sorted := (SortSpec.almost_sorted v).

Lemma K_swap (a : list nat) (p q r : Z) :
  inb a p -> inb a q -> 0 <= r ->
  K (NpSort.swap a p q) r =
  if r =? q then K a p else if r =? p then K a q else K a r.
Proof.
  intros Hp Hq Hr. unfold SortSpec.K. rewrite get_swap by assumption.
  destruct (r =? q); [reflexivity|]. now destruct (r =? p).
Qed.

(** *** Insertion sort *)

Lemma insert_down_bubble (fuel : nat) (a : list nat) (pl pj : Z) (vi : nat) :
  0 <= pl <= pj -> inb a pj ->
  NpSort.insert_down v fuel a pl vi pj = bubble fuel (NpSort.set a pj vi) pl pj.
Proof.
  revert a pj. induction fuel as [| f IH]; intros a pj Hpl Hpj; [reflexivity|].
  cbn [NpSort.insert_down SortSpec.bubble].
  destruct (Z.gtb_spec pj pl) as [G | G]; [|reflexivity].
  cbn [andb]. unfold SortSpec.K.
  rewrite !get_set by (unfold inb in *; lia).
  rewrite Z.eqb_refl.
  destruct (Z.eqb_spec (pj - 1) pj) as [E | _]; [lia|].
  destruct (NpSort.LT (NpSort.key v vi) (NpSort.key v (NpSort.get a (pj - 1))));
    [|reflexivity].
  rewrite IH by (unfold inb in *; rewrite ?set_length; lia).
  f_equal. apply list_ext_get.
  - now rewrite swap_length, !set_length.
  - intros p Hp. unfold inb in Hp. rewrite !set_length in Hp.
    rewrite get_swap by (unfold inb; rewrite ?set_length; unfold inb in *; lia).
    rewrite !get_set by (unfold inb; rewrite ?set_length; unfold inb in *; lia).
    rewrite Z.eqb_refl.
    destruct (Z.eqb_spec (pj - 1) pj) as [E | _]; [lia|].
    destruct (Z.eqb_spec p (pj - 1)) as [-> | N1].
    + destruct (Z.eqb_spec (pj - 1) pj); [lia | reflexivity].
    + destruct (Z.eqb_spec p pj) as [-> | N2]; reflexivity.
Qed.

Lemma bubble_spec (fuel : nat) (a : list nat) (pl pi pj : Z) :
  0 <= pl <= pj -> pj <= pi -> inb a pi ->
  pj - pl <= Z.of_nat fuel ->
  almost_sorted a pl pi pj ->
  swaps pl pi a (bubble fuel a pl pj) /\
  seg_sorted (bubble fuel a pl pj) pl pi.
Proof.
  revert a pj. induction fuel as [| f IH]; intros a pj Hpl Hpj Hpi Hf Hal.
  - cbn [SortSpec.bubble]. split; [constructor|].
    intros i j Hi Hij Hj. apply Hal; lia.
  - cbn [SortSpec.bubble].
    destruct (Z.gtb_spec pj pl) as [G | G]; cbn [andb].
    + destruct (NpSort.LT (K a pj) (K a (pj - 1))) eqn:ELT.
      * assert (H1 : inb a (pj - 1)) by (unfold inb in *; lia).
        assert (H2 : inb a pj) by (unfold inb in *; lia).
        destruct (IH (NpSort.swap a (pj - 1) pj) (pj - 1)) as [Hsw Hso].
        { lia. }
        { lia. }
        { unfold inb in *. now rewrite swap_length. }
        { lia. }
        { intros i j Hi Hij Hj Hne.
          rewrite !K_swap by (try assumption; lia).
          destruct (Z.eqb_spec j pj) as [-> | Nj].
          - destruct (Z.eqb_spec i pj); [lia|].
            destruct (Z.eqb_spec i (pj - 1)) as [-> | Ni].
            + now apply LT_nle.
            + apply Hal; lia.
          - destruct (Z.eqb_spec j (pj - 1)); [lia|].
            destruct (Z.eqb_spec i pj) as [-> | Ni].
            + apply Hal; lia.
            + destruct (Z.eqb_spec i (pj - 1)) as [-> | Ni'].
              * apply Hal; lia.
              * apply Hal; lia. }
        split; [|exact Hso].
        eapply swaps_step; [exact H1 | exact H2 | lia | lia | exact Hsw].
      * split; [constructor|].
        intros i j Hi Hij Hj.
        destruct (Z.eq_dec j pj) as [-> | Nj]; [|apply Hal; lia].
        apply nle_trans with (K a (pj - 1)); [|exact ELT].
        destruct (Z.eq_dec i (pj - 1)) as [-> | Ni]; [apply nle_refl|].
        apply Hal; lia.
    + split; [constructor|].
      intros i j Hi Hij Hj. apply Hal; lia.
Qed.

Lemma set_get_same (a : list nat) (p : Z) :
  inb a p -> NpSort.set a p (NpSort.get a p) = a.
Proof.
  intros Hp. apply list_ext_get; [apply set_length|].
  intros q Hq. unfold inb in Hq. rewrite set_length in Hq.
  rewrite get_set by (unfold inb in *; lia).
  destruct (Z.eqb_spec q p); congruence.
Qed.

Lemma insertion_loop_spec (fuel : nat) (a : list nat) (pl pr pi : Z) :
  0 <= pl -> pl < pi -> pr < Z.of_nat (length a) ->
  pr - pi + 1 <= Z.of_nat fuel ->
  seg_sorted a pl (pi - 1) ->
  swaps pl pr a (NpSort.insertion_loop v fuel a pl pr pi) /\
  seg_sorted (NpSort.insertion_loop v fuel a pl pr pi) pl pr.
Proof.
  revert a pi. induction fuel as [| f IH]; intros a pi Hpl Hpi Hpr Hf Hso.
  - cbn [NpSort.insertion_loop]. split; [constructor|].
    intros i j Hi Hij Hj. apply Hso; lia.
  - cbn [NpSort.insertion_loop].
    destruct (Z.leb_spec pi pr) as [L | L].
    + assert (Hin : inb a pi) by (unfold inb; lia).
      rewrite insert_down_bubble by (try assumption; lia).
      rewrite set_get_same by assumption.
      destruct (bubble_spec (length a) a pl pi pi) as [Hsw Hb];
        try assumption; try lia.
      { intros i j Hi Hij Hj Hne. apply Hso; lia. }
      set (b := bubble (length a) a pl pi) in *.
      assert (Hlen : length b = length a) by (eapply swaps_length; eassumption).
      destruct (IH b (pi + 1)) as [Hsw' Hb']; try lia.
      { now replace (pi + 1 - 1) with pi by lia. }
      split; [|exact Hb'].
      eapply swaps_trans; [|exact Hsw'].
      eapply swaps_widen; [| |exact Hsw]; lia.
    + split; [constructor|].
      intros i j Hi Hij Hj. apply Hso; lia.
Qed.

Lemma insertion_sort_spec (a : list nat) (pl pr : Z) :
  0 <= pl -> pr < Z.of_nat (length a) ->
  swaps pl pr a (NpSort.insertion_sort v a pl pr) /\
  seg_sorted (NpSort.insertion_sort v a pl pr) pl pr.
Proof.
  intros Hpl Hpr. unfold NpSort.insertion_sort.
  apply insertion_loop_spec; try lia.
  intros i j Hi Hij Hj. lia.
Qed.

End SortProofs.

Section PartitionProofs.

Variable v : list fl.
Local Abbreviation K := (SortSpec.K v).

(** *** The partition *)

Lemma scan_up_spec (fuel : nat) (a : list nat) (vp : fl) (pi s : Z) :
  pi < s -> NpSort.LT (K a s) vp = false -> s - pi <= Z.of_nat fuel ->
  let pi' := NpSort.scan_up v fuel a vp pi in
  pi < pi' <= s /\ NpSort.LT (K a pi') vp = false /\
  forall k, pi < k < pi' -> NpSort.LT (K a k) vp = true.
Proof.
  revert pi. induction fuel as [| f IH]; intros pi Hs Hstop Hf; [lia|].
  cbn [NpSort.scan_up]. cbv zeta.
  change (NpSort.key v (NpSort.get a (pi + 1))) with (K a (pi + 1)).
  destruct (NpSort.LT (K a (pi + 1)) vp) eqn:E.
  - assert (pi + 1 <> s) by (intros Heq; rewrite <- Heq in Hstop; congruence).
    destruct (IH (pi + 1)) as (H1 & H2 & H3); try lia; [assumption|].
    split; [lia|]. split; [exact H2|].
    intros k Hk. destruct (Z.eq_dec k (pi + 1)) as [-> | N]; [exact E|].
    apply H3. lia.
  - split; [lia|]. split; [exact E|]. intros k Hk. lia.
Qed.

Lemma scan_down_spec (fuel : nat) (a : list nat) (vp : fl) (pj s : Z) :
  s < pj -> NpSort.LT vp (K a s) = false -> pj - s <= Z.of_nat fuel ->
  let pj' := NpSort.scan_down v fuel a vp pj in
  s <= pj' < pj /\ NpSort.LT vp (K a pj') = false /\
  forall k, pj' < k < pj -> NpSort.LT vp (K a k) = true.
Proof.
  revert pj. induction fuel as [| f IH]; intros pj Hs Hstop Hf; [lia|].
  cbn [NpSort.scan_down]. cbv zeta.
  change (NpSort.key v (NpSort.get a (pj - 1))) with (K a (pj - 1)).
  destruct (NpSort.LT vp (K a (pj - 1))) eqn:E.
  - assert (pj - 1 <> s) by (intros Heq; rewrite <- Heq in Hstop; congruence).
    destruct (IH (pj - 1)) as (H1 & H2 & H3); try lia; [assumption|].
    split; [lia|]. split; [exact H2|].
    intros k Hk. destruct (Z.eq_dec k (pj - 1)) as [-> | N]; [exact E|].
    apply H3. lia.
  - split; [lia|]. split; [exact E|]. intros k Hk. lia.
Qed.

Lemma partition_loop_spec (fuel : nat) (a : list nat) (vp : fl)
  (pl pr pi pj : Z) :
  0 <= pl -> pl <= pi -> pi < pj -> pj <= pr - 1 -> pr < Z.of_nat (length a) ->
  pj - pi <= Z.of_nat fuel ->
  (forall k, pl <= k <= pi -> nle (K a k) vp) ->
  (forall k, pj <= k <= pr -> nle vp (K a k)) ->
  K a (pr - 1) = vp ->
  let '(b, pi') := NpSort.partition_loop v fuel a vp pi pj in
  swaps (pl + 1) (pr - 2) a b /\ pl < pi' <= pr - 1 /\
  (forall k, pl <= k < pi' -> nle (K b k) vp) /\
  (forall k, pi' <= k <= pr -> nle vp (K b k)) /\
  K b (pr - 1) = vp.
Proof.
  revert a pi pj. induction fuel as [| f IH];
    intros a pi pj Hpl Hpi Hij Hpj Hpr Hf Hlo Hhi Hpiv; [lia|].
  cbn [NpSort.partition_loop]. cbv zeta.
  destruct (scan_up_spec (length a) a vp pi pj) as (U1 & U2 & U3);
    [lia | apply Hhi; lia | lia |].
  set (pi' := NpSort.scan_up v (length a) a vp pi) in *.
  destruct (scan_down_spec (length a) a vp pj pi) as (D1 & D2 & D3);
    [lia | apply Hlo; lia | lia |].
  set (pj' := NpSort.scan_down v (length a) a vp pj) in *.
  assert (Hlo' : forall k, pl <= k < pi' -> nle (K a k) vp).
  { intros k Hk. destruct (Z_le_gt_dec k pi) as [L | G].
    - apply Hlo. lia.
    - apply LT_nle. apply U3. lia. }
  assert (Hhi' : forall k, pj' < k <= pr -> nle vp (K a k)).
  { intros k Hk. destruct (Z_lt_le_dec k pj) as [L | G].
    - apply LT_nle. apply D3. lia.
    - apply Hhi. lia. }
  destruct (Z.geb_spec pi' pj') as [G | L].
  - split; [constructor|]. split; [lia|]. split; [exact Hlo'|].
    split; [|exact Hpiv].
    intros k Hk. destruct (Z.eq_dec k pi') as [-> | N]; [exact U2|].
    apply Hhi'. lia.
  - assert (I1 : inb a pi') by (unfold inb; lia).
    assert (I2 : inb a pj') by (unfold inb; lia).
    specialize (IH (NpSort.swap a pi' pj') pi' pj').
    destruct (NpSort.partition_loop v f (NpSort.swap a pi' pj') vp pi' pj')
      as [b pi''].
    destruct IH as (S1 & S2 & S3 & S4 & S5); try lia.
    + now rewrite swap_length.
    + intros k Hk. rewrite K_swap by (try assumption; lia).
      destruct (Z.eqb_spec k pj'); [lia|].
      destruct (Z.eqb_spec k pi') as [-> | N]; [exact D2|].
      apply Hlo'. lia.
    + intros k Hk. rewrite K_swap by (try assumption; lia).
      destruct (Z.eqb_spec k pj') as [-> | N]; [exact U2|].
      destruct (Z.eqb_spec k pi'); [lia|].
      apply Hhi'. lia.
    + rewrite K_swap by (try assumption; lia).
      destruct (Z.eqb_spec (pr - 1) pj'); [lia|].
      destruct (Z.eqb_spec (pr - 1) pi'); [lia|]. exact Hpiv.
    + split; [|auto].
      eapply swaps_step; [exact I1 | exact I2 | lia | lia | exact S1].
Qed.

(** What [swap_if_lt a p q] leaves: the cell [q] is not after the cell
    [p], the two cells hold the two values they held, in one order or
    the other, and nothing else has moved. *)
Lemma swap_if_lt_spec (a : list nat) (p q : Z) :
  inb a p -> inb a q -> p <> q ->
  let b := NpSort.swap_if_lt v a p q in
  length b = length a /\
  nle (K b q) (K b p) /\
  ((K b p = K a p /\ K b q = K a q) \/ (K b p = K a q /\ K b q = K a p)) /\
  (forall r, 0 <= r -> r <> p -> r <> q -> K b r = K a r) /\
  (forall l h, l <= p <= h -> l <= q <= h -> swaps l h a b).
Proof.
  intros Hp Hq Hne. unfold NpSort.swap_if_lt.
  change (NpSort.key v (NpSort.get a p)) with (K a p).
  change (NpSort.key v (NpSort.get a q)) with (K a q).
  destruct (NpSort.LT (K a p) (K a q)) eqn:E; cbv zeta.
  - split; [apply swap_length|].
    assert (Eq : K (NpSort.swap a p q) q = K a p).
    { rewrite K_swap by (try assumption; unfold inb in *; lia).
      now rewrite Z.eqb_refl. }
    assert (Ep : K (NpSort.swap a p q) p = K a q).
    { rewrite K_swap by (try assumption; unfold inb in *; lia).
      destruct (Z.eqb_spec p q); [congruence|]. now rewrite Z.eqb_refl. }
    rewrite Eq, Ep. split; [now apply LT_nle|]. split; [now right|].
    split.
    + intros r Hr N1 N2. rewrite K_swap by assumption.
      destruct (Z.eqb_spec r q); [congruence|].
      destruct (Z.eqb_spec r p); [congruence|]. reflexivity.
    + intros l h Hl Hh. now apply swaps_one.
  - split; [reflexivity|]. split; [exact E|]. split; [now left|].
    split; [reflexivity|]. intros l h _ _. constructor.
Qed.

Lemma partition_spec (a : list nat) (pl pr : Z) :
  0 <= pl -> pr < Z.of_nat (length a) -> 4 <= pr - pl ->
  let '(b, pi) := NpSort.partition v a pl pr in
  swaps pl pr a b /\ pl < pi < pr /\
  (forall k, pl <= k < pi -> nle (K b k) (K b pi)) /\
  (forall k, pi < k <= pr -> nle (K b pi) (K b k)).
Proof.
  intros Hpl Hpr Hsize. unfold NpSort.partition. cbv zeta.
  rewrite Z.shiftr_div_pow2 by lia. change (2 ^ 1) with 2.
  set (pm := pl + (pr - pl) / 2).
  assert (Hpm : pl < pm < pr - 1).
  { unfold pm. pose proof (Z.div_mod (pr - pl) 2 ltac:(lia)) as E.
    pose proof (Z.mod_pos_bound (pr - pl) 2 ltac:(lia)). lia. }
  clearbody pm.
  (* median of three *)
  destruct (swap_if_lt_spec a pm pl) as (L1 & O1 & C1 & R1 & W1);
    [unfold inb; lia | unfold inb; lia | lia |].
  set (a1 := NpSort.swap_if_lt v a pm pl) in *.
  destruct (swap_if_lt_spec a1 pr pm) as (L2 & O2 & C2 & R2 & W2);
    [unfold inb; lia | unfold inb; lia | lia |].
  set (a2 := NpSort.swap_if_lt v a1 pr pm) in *.
  destruct (swap_if_lt_spec a2 pm pl) as (L3 & O3 & C3 & R3 & W3);
    [unfold inb; lia | unfold inb; lia | lia |].
  set (a3 := NpSort.swap_if_lt v a2 pm pl) in *.
  assert (Hpl2 : K a2 pl = K a1 pl) by (apply R2; lia).
  assert (Hpr3 : K a3 pr = K a2 pr) by (apply R3; lia).
  assert (Hlr2 : nle (K a2 pl) (K a2 pr)).
  { rewrite Hpl2. destruct C2 as [[E1 E2] | [E1 E2]]; rewrite E1.
    - apply nle_trans with (K a1 pm); [exact O1|].
      rewrite <- E1, <- E2. exact O2.
    - exact O1. }
  assert (Hmr3 : nle (K a3 pm) (K a3 pr)).
  { rewrite Hpr3. destruct C3 as [[E1 E2] | [E1 E2]]; rewrite E1;
      [exact O2 | exact Hlr2]. }
  (* the pivot goes to pr - 1 *)
  set (vp := NpSort.key v (NpSort.get a3 pm)).
  change (NpSort.key v (NpSort.get a3 pm)) with (K a3 pm) in vp.
  assert (I3m : inb a3 pm) by (unfold inb; lia).
  assert (I3j : inb a3 (pr - 1)) by (unfold inb; lia).
  set (a4 := NpSort.swap a3 pm (pr - 1)).
  assert (L4 : length a4 = length a) by (unfold a4; rewrite swap_length; lia).
  pose proof (partition_loop_spec (length a4) a4 vp pl pr pl (pr - 1)) as HL.
  destruct (NpSort.partition_loop v (length a4) a4 vp pl (pr - 1)) as [b pi].
  destruct HL as (S1 & S2 & S3 & S4 & S5); try lia.
  { intros k Hk. replace k with pl by lia. unfold a4.
    rewrite K_swap by (try assumption; lia).
    destruct (Z.eqb_spec pl (pr - 1)); [lia|].
    destruct (Z.eqb_spec pl pm); [lia|]. exact O3. }
  { intros k Hk. unfold a4. rewrite K_swap by (try assumption; lia).
    destruct (Z.eqb_spec k (pr - 1)); [apply nle_refl|].
    destruct (Z.eqb_spec k pm); [lia|].
    replace k with pr by lia. exact Hmr3. }
  { unfold a4. rewrite K_swap by (try assumption; lia).
    now rewrite Z.eqb_refl. }
  assert (Lb : length b = length a4) by (eapply swaps_length; eassumption).
  assert (Ib1 : inb b pi) by (unfold inb; lia).
  assert (Ib2 : inb b (pr - 1)) by (unfold inb; lia).
  assert (Epi : K (NpSort.swap b pi (pr - 1)) pi = vp).
  { rewrite K_swap by (try assumption; lia).
    destruct (Z.eqb_spec pi (pr - 1)) as [-> | N]; [exact S5|].
    now rewrite Z.eqb_refl. }
  split; [|split; [lia|split]].
  - apply swaps_trans with a4.
    + apply swaps_trans with a3; [|apply swaps_one; try assumption; lia].
      apply swaps_trans with a2; [|apply W3; lia].
      apply swaps_trans with a1; [apply W1; lia | apply W2; lia].
    + apply swaps_trans with b.
      * eapply swaps_widen; [| |exact S1]; lia.
      * apply swaps_one; try assumption; lia.
  - intros k Hk. rewrite Epi. rewrite K_swap by (try assumption; lia).
    destruct (Z.eqb_spec k (pr - 1)); [lia|].
    destruct (Z.eqb_spec k pi); [lia|]. apply S3. lia.
  - intros k Hk. rewrite Epi. rewrite K_swap by (try assumption; lia).
    destruct (Z.eqb_spec k (pr - 1)); [apply S4; lia|].
    destruct (Z.eqb_spec k pi); [lia|]. apply S4. lia.
Qed.

End PartitionProofs.

Section HeapProofs.

Variable v : list fl.
Local Abbreviation K := (SortSpec.K v).
Local Abbreviation sift_sw := (SortSpec.sift_sw v).
Local Abbreviation Hk := (SortSpec.Hk v).
Local Abbreviation heap_at := (SortSpec.heap_at v).
Local Abbreviation almost_heap := (SortSpec.almost_heap v).

(** *** Heapsort *)

Lemma sift_sift_sw (fuel : nat) (a : list nat) (pl n i j : Z) (tmp : nat) :
  0 <= pl -> 1 <= i -> i < j -> pl + n - 1 < Z.of_nat (length a) ->
  NpSort.sift v fuel a pl n tmp i j =
  sift_sw fuel (NpSort.set a (pl + i - 1) tmp) pl n i j.
Proof.
  revert a i j. induction fuel as [| f IH]; intros a i j Hpl Hi Hij Hn;
    [reflexivity|].
  cbn [NpSort.sift SortSpec.sift_sw]. cbv zeta.
  destruct (Z.leb_spec j n) as [L | L]; [|reflexivity].
  assert (Ii : inb a (pl + i - 1)) by (unfold inb; lia).
  unfold SortSpec.K.
  rewrite (get_set a (pl + i - 1) (pl + j - 1)) by (try assumption; lia).
  rewrite (get_set a (pl + i - 1) (pl + (j + 1) - 1)) by (try assumption; lia).
  rewrite (get_set a (pl + i - 1) (pl + i - 1)) by (try assumption; lia).
  rewrite Z.eqb_refl.
  destruct (Z.eqb_spec (pl + j - 1) (pl + i - 1)); [lia|].
  destruct (Z.eqb_spec (pl + (j + 1) - 1) (pl + i - 1)); [lia|].
  set (j' := if (j <? n) &&
                NpSort.LT (NpSort.key v (NpSort.get a (pl + j - 1)))
                          (NpSort.key v (NpSort.get a (pl + (j + 1) - 1)))
             then j + 1 else j).
  assert (Hj' : j <= j' <= n).
  { unfold j'. destruct (Z.ltb_spec j n); cbn [andb]; [|lia].
    destruct (NpSort.LT _ _); lia. }
  clearbody j'.
  rewrite get_set by (try assumption; lia).
  destruct (Z.eqb_spec (pl + j' - 1) (pl + i - 1)); [lia|].
  destruct (NpSort.LT (NpSort.key v tmp)
                      (NpSort.key v (NpSort.get a (pl + j' - 1))));
    [|reflexivity].
  rewrite IH by (rewrite ?set_length; lia).
  f_equal. apply list_ext_get.
  - now rewrite swap_length, !set_length.
  - intros p Hp. unfold inb in Hp. rewrite !set_length in Hp.
    rewrite get_swap by (unfold inb; rewrite ?set_length; unfold inb in *; lia).
    rewrite !get_set by (unfold inb; rewrite ?set_length; unfold inb in *; lia).
    rewrite Z.eqb_refl.
    destruct (Z.eqb_spec (pl + j' - 1) (pl + i - 1)); [lia|].
    destruct (Z.eqb_spec p (pl + j' - 1)) as [-> | N1]; [reflexivity|].
    destruct (Z.eqb_spec p (pl + i - 1)) as [-> | N2]; reflexivity.
Qed.

Lemma Hk_swap (pl : Z) (a : list nat) (x y k : Z) :
  0 <= pl -> 1 <= x -> 1 <= y -> 1 <= k ->
  pl + x - 1 < Z.of_nat (length a) -> pl + y - 1 < Z.of_nat (length a) ->
  Hk pl (NpSort.swap a (pl + x - 1) (pl + y - 1)) k =
  if k =? y then Hk pl a x else if k =? x then Hk pl a y else Hk pl a k.
Proof.
  intros. unfold SortSpec.Hk. rewrite K_swap by (unfold inb; lia).
  destruct (Z.eqb_spec k y), (Z.eqb_spec (pl + k - 1) (pl + y - 1));
    try lia; try reflexivity.
  destruct (Z.eqb_spec k x), (Z.eqb_spec (pl + k - 1) (pl + x - 1));
    try lia; reflexivity.
Qed.

Lemma sift_sw_spec (fuel : nat) (a : list nat) (pl lo m i : Z) :
  0 <= pl -> 1 <= lo -> lo <= i -> i <= m ->
  pl + m - 1 < Z.of_nat (length a) ->
  m - i < Z.of_nat fuel ->
  almost_heap pl a lo m i ->
  swaps (pl + i - 1) (pl + m - 1) a (sift_sw fuel a pl m i (2 * i)) /\
  (forall k, lo <= k <= m -> heap_at pl (sift_sw fuel a pl m i (2 * i)) m k).
Proof.
  revert a i. induction fuel as [| f IH];
    intros a i Hpl Hlo Hi Him Hlen Hf [Hheap Hgrand]; [lia|].
  cbn [SortSpec.sift_sw]. cbv zeta.
  destruct (Z.leb_spec (2 * i) m) as [L | L].
  - (* the larger child *)
    set (j := if (2 * i <? m) &&
                 NpSort.LT (K a (pl + 2 * i - 1)) (K a (pl + (2 * i + 1) - 1))
              then 2 * i + 1 else 2 * i).
    assert (Hj : (j = 2 * i \/ j = 2 * i + 1) /\ j <= m /\
                 forall c, c = 2 * i \/ c = 2 * i + 1 -> c <= m ->
                           nle (Hk pl a c) (Hk pl a j)).
    { unfold j. destruct (Z.ltb_spec (2 * i) m) as [L' | L']; cbn [andb].
      - destruct (NpSort.LT (K a (pl + 2 * i - 1))
                            (K a (pl + (2 * i + 1) - 1))) eqn:E.
        + split; [now right|]. split; [lia|].
          intros c [-> | ->] Hc; [now apply LT_nle | apply nle_refl].
        + split; [now left|]. split; [lia|].
          intros c [-> | ->] Hc; [apply nle_refl | exact E].
      - split; [now left|]. split; [lia|].
        intros c [-> | ->] Hc; [apply nle_refl | lia]. }
    clearbody j. destruct Hj as (Hjc & Hjm & Hjmax).
    change (K a (pl + i - 1)) with (Hk pl a i).
    change (K a (pl + j - 1)) with (Hk pl a j).
    destruct (NpSort.LT (Hk pl a i) (Hk pl a j)) eqn:E.
    + replace (j + j) with (2 * j) by lia.
      destruct (IH (NpSort.swap a (pl + i - 1) (pl + j - 1)) j)
        as [Hsw Hh]; try lia.
      { rewrite swap_length. lia. }
      { split.
        - intros k Hk0 Hkj c Hc Hcm.
          rewrite !Hk_swap by lia.
          destruct (Z.eqb_spec k j); [lia|].
          destruct (Z.eqb_spec c j) as [-> | Ncj].
          { assert (k = i) by lia. subst k. rewrite Z.eqb_refl.
            now apply LT_nle. }
          destruct (Z.eqb_spec k i) as [-> | Nki].
          + destruct (Z.eqb_spec c i); [lia|]. now apply Hjmax.
          + destruct (Z.eqb_spec c i) as [-> | Nci].
            * apply (Hgrand k j); try lia.
            * now apply Hheap.
        - intros p c Hp Hjp Hc Hcm.
          assert (p = i) by lia. subst p.
          rewrite !Hk_swap by lia.
          destruct (Z.eqb_spec c j); [lia|].
          destruct (Z.eqb_spec c i); [lia|].
          destruct (Z.eqb_spec i j); [lia|].
          rewrite Z.eqb_refl.
          apply (Hheap j); try lia. }
      split; [|exact Hh].
      eapply swaps_step; [| | | |
        eapply swaps_widen; [| |exact Hsw]]; unfold inb; try lia.
    + split; [constructor|].
      intros k Hk0. destruct (Z.eq_dec k i) as [-> | N]; [|now apply Hheap].
      intros c Hc Hcm. apply nle_trans with (Hk pl a j); [|exact E].
      now apply Hjmax.
  - split; [constructor|].
    intros k Hk0. destruct (Z.eq_dec k i) as [-> | N]; [|now apply Hheap].
    intros c Hc Hcm. lia.
Qed.

Lemma heapify_spec (fuel : nat) (a : list nat) (pl n l : Z) :
  0 <= pl -> 0 <= l -> l <= n -> pl + n - 1 < Z.of_nat (length a) ->
  l <= Z.of_nat fuel ->
  (forall k, l + 1 <= k <= n -> heap_at pl a n k) ->
  swaps pl (pl + n - 1) a (NpSort.heapify v fuel a pl n l) /\
  (forall k, 1 <= k <= n -> heap_at pl (NpSort.heapify v fuel a pl n l) n k).
Proof.
  revert a l. induction fuel as [| f IH]; intros a l Hpl Hl Hln Hlen Hf Hh.
  - cbn [NpSort.heapify]. split; [constructor|].
    intros k Hk0. apply Hh. lia.
  - cbn [NpSort.heapify].
    destruct (Z.gtb_spec l 0) as [G | G].
    + rewrite Z.shiftl_mul_pow2 by lia. change (2 ^ 1) with 2.
      rewrite sift_sift_sw by lia.
      rewrite set_get_same by (unfold inb; lia).
      replace (l * 2) with (2 * l) by lia.
      destruct (sift_sw_spec (length a) a pl l n l) as [Hsw Hh']; try lia.
      { split.
        - intros k Hk0 Hkl. apply Hh. lia.
        - intros p c Hp Hlp. lia. }
      set (b := sift_sw (length a) a pl n l (2 * l)) in *.
      assert (Lb : length b = length a) by (eapply swaps_length; eassumption).
      destruct (IH b (l - 1)) as [Hsw2 Hh2]; try lia.
      { intros k Hk0. apply Hh'. lia. }
      split; [|exact Hh2].
      eapply swaps_trans; [|exact Hsw2].
      eapply swaps_widen; [| |exact Hsw]; lia.
    + split; [constructor|].
      intros k Hk0. apply Hh. lia.
Qed.

(** The root of a heap is not before any node. *)
Lemma heap_root_max (pl : Z) (a : list nat) (n : Z) :
  (forall k, 1 <= k <= n -> heap_at pl a n k) ->
  forall k, 1 <= k <= n -> nle (Hk pl a k) (Hk pl a 1).
Proof.
  intros Hh k Hk0.
  assert (G : forall b : nat, forall k, 1 <= k <= n -> k <= Z.of_nat b ->
                                        nle (Hk pl a k) (Hk pl a 1)).
  { induction b as [| b IHb]; intros k' Hk' Hb; [lia|].
    destruct (Z.eq_dec k' 1) as [-> | N]; [apply nle_refl|].
    assert (Hp : exists p, 1 <= p /\ (k' = 2 * p \/ k' = 2 * p + 1)).
    { exists (k' / 2). pose proof (Z.div_mod k' 2 ltac:(lia)).
      pose proof (Z.mod_pos_bound k' 2 ltac:(lia)). lia. }
    destruct Hp as (p & Hp1 & Hp2).
    apply nle_trans with (Hk pl a p).
    - apply (Hh p); lia.
    - apply IHb; lia. }
  apply (G (Z.to_nat k)); lia.
Qed.

Lemma heap_extract_spec (fuel : nat) (a : list nat) (pl n N : Z) :
  0 <= pl -> 0 <= n -> n <= N -> pl + N - 1 < Z.of_nat (length a) ->
  n - 1 <= Z.of_nat fuel ->
  (forall k, 1 <= k <= n -> heap_at pl a n k) ->
  (forall s t, n + 1 <= s -> s < t -> t <= N -> nle (Hk pl a s) (Hk pl a t)) ->
  (forall k t, 1 <= k <= n -> n + 1 <= t <= N -> nle (Hk pl a k) (Hk pl a t)) ->
  swaps pl (pl + N - 1) a (NpSort.heap_extract v fuel a pl n) /\
  (forall s t, 1 <= s -> s < t -> t <= N ->
               nle (Hk pl (NpSort.heap_extract v fuel a pl n) s)
                   (Hk pl (NpSort.heap_extract v fuel a pl n) t)).
Proof.
  revert a n. induction fuel as [| f IH];
    intros a n Hpl Hn HnN Hlen Hf Hh Hsuf Hcross.
  - cbn [NpSort.heap_extract]. split; [constructor|].
    intros s t Hs Hst Ht.
    destruct (Z_le_gt_dec s n); [apply Hcross | apply Hsuf]; lia.
  - cbn [NpSort.heap_extract].
    destruct (Z.gtb_spec n 1) as [G | G].
    + cbv zeta.
      rewrite sift_sift_sw by (rewrite ?set_length; lia).
      replace (pl + 1 - 1) with pl by lia.
      change (NpSort.set (NpSort.set a (pl + n - 1) (NpSort.get a pl)) pl
                         (NpSort.get a (pl + n - 1)))
        with (NpSort.swap a (pl + n - 1) pl).
      rewrite set_length.
      set (a1 := NpSort.swap a (pl + n - 1) pl).
      assert (L1 : length a1 = length a) by apply swap_length.
      assert (H1 : forall k, 1 <= k ->
                 Hk pl a1 k = if k =? 1 then Hk pl a n
                              else if k =? n then Hk pl a 1 else Hk pl a k).
      { intros k Hk0. unfold a1.
        replace (NpSort.swap a (pl + n - 1) pl)
          with (NpSort.swap a (pl + n - 1) (pl + 1 - 1)) by (f_equal; lia).
        now rewrite Hk_swap by lia. }
      rewrite <- L1.
      destruct (sift_sw_spec (length a1) a1 pl 1 (n - 1) 1) as [Hsw Hh'];
        try lia.
      { split.
        - intros k Hk0 Hk1 c Hc Hcm. rewrite !H1 by lia.
          destruct (Z.eqb_spec c 1); [lia|].
          destruct (Z.eqb_spec c n); [lia|].
          destruct (Z.eqb_spec k 1); [lia|].
          destruct (Z.eqb_spec k n); [lia|].
          apply (Hh k); lia.
        - intros p c Hp Hip. lia. }
      change (2 * 1) with 2 in *.
      set (b := sift_sw (length a1) a1 pl (n - 1) 1 2) in *.
      assert (Lb : length b = length a1) by (eapply swaps_length; eassumption).
      assert (Hout : forall t, n <= t <= N -> Hk pl b t = Hk pl a1 t).
      { intros t Ht. unfold SortSpec.Hk, SortSpec.K. f_equal.
        eapply swaps_outside; [exact Hsw | lia | lia]. }
      assert (Hin : forall k, 1 <= k <= n - 1 ->
                    exists k', 1 <= k' <= n /\ Hk pl b k = Hk pl a k').
      { intros k Hk0.
        destruct (swaps_inside _ _ _ _ (pl + k - 1) Hsw)
          as (q & Hq & Hlq & E); [unfold inb; lia | lia |].
        assert (Eq : Hk pl b k = Hk pl a1 (q - pl + 1)).
        { unfold SortSpec.Hk, SortSpec.K. rewrite E. do 2 f_equal. lia. }
        rewrite Eq, H1 by lia.
        destruct (Z.eqb_spec (q - pl + 1) 1); [exists n; split; [lia|auto]|].
        destruct (Z.eqb_spec (q - pl + 1) n); [lia|].
        exists (q - pl + 1). split; [lia | reflexivity]. }
      destruct (IH b (n - 1)) as [Hsw2 Hso]; try lia; try exact Hh'.
      { replace (n - 1 + 1) with n by lia.
        intros s t Hs Hst Ht. rewrite !Hout, !H1 by lia.
        destruct (Z.eqb_spec t 1); [lia|]. destruct (Z.eqb_spec t n); [lia|].
        destruct (Z.eqb_spec s 1); [lia|].
        destruct (Z.eqb_spec s n) as [-> | Ns].
        - apply Hcross; lia.
        - apply Hsuf; lia. }
      { replace (n - 1 + 1) with n by lia.
        intros k t Hk0 Ht. destruct (Hin k Hk0) as (k' & Hk' & ->).
        rewrite Hout, H1 by lia.
        destruct (Z.eqb_spec t 1); [lia|].
        destruct (Z.eqb_spec t n) as [-> | Nt].
        - now apply heap_root_max with n.
        - apply Hcross; lia. }
      split; [|exact Hso].
      eapply swaps_step; [| | | |
        eapply swaps_trans; [|exact Hsw2];
        eapply swaps_widen; [| |exact Hsw]]; unfold inb; try lia.
    + split; [constructor|].
      intros s t Hs Hst Ht.
      destruct (Z_le_gt_dec s n); [apply Hcross | apply Hsuf]; lia.
Qed.

Lemma aheapsort_spec (a : list nat) (pl n : Z) :
  0 <= pl -> 0 <= n -> pl + n - 1 < Z.of_nat (length a) ->
  swaps pl (pl + n - 1) a (NpSort.aheapsort v a pl n) /\
  seg_sorted v (NpSort.aheapsort v a pl n) pl (pl + n - 1).
Proof.
  intros Hpl Hn Hlen. unfold NpSort.aheapsort. cbv zeta.
  rewrite Z.shiftr_div_pow2 by lia. change (2 ^ 1) with 2.
  assert (Hhalf : 0 <= n / 2 /\ 2 * (n / 2) <= n /\ n < 2 * (n / 2) + 2).
  { pose proof (Z.div_mod n 2 ltac:(lia)).
    pose proof (Z.mod_pos_bound n 2 ltac:(lia)). lia. }
  destruct (heapify_spec (length a) a pl n (n / 2)) as [Hsw Hh]; try lia.
  { intros k Hk0 c Hc Hcm. lia. }
  set (b := NpSort.heapify v (length a) a pl n (n / 2)) in *.
  assert (Lb : length b = length a) by (eapply swaps_length; eassumption).
  destruct (heap_extract_spec (length b) b pl n n) as [Hsw2 Hso];
    try lia; try assumption.
  split; [eapply swaps_trans; eassumption|].
  intros i j Hi Hij Hj.
  specialize (Hso (i - pl + 1) (j - pl + 1)).
  unfold SortSpec.Hk in Hso.
  replace (pl + (i - pl + 1) - 1) with i in Hso by lia.
  replace (pl + (j - pl + 1) - 1) with j in Hso by lia.
  apply Hso; lia.
Qed.

End HeapProofs.

Section LoopProofs.

Variable v : list fl.
Local Abbreviation K := (SortSpec.K v).
Local Abbreviation ordered_but := (SortSpec.ordered_but v).

(** *** The main loop *)

Lemma cost_nonneg (n : Z) (P : list (Z * Z)) :
  Forall (fun s => 0 <= fst s /\ snd s < n /\ fst s <= snd s + 1) P ->
  0 <= cost P.
Proof.
  induction 1 as [| s P Hs _ IH]; cbn [cost]; lia.
Qed.

Lemma FOP_cons_inv {A : Type} (R : A -> A -> Prop) (x : A) (l : list A) :
  ForallOrdPairs R (x :: l) -> Forall (R x) l /\ ForallOrdPairs R l.
Proof. inversion 1; auto. Qed.

(** The value of a cell after exchanges within [l..r] is the value that
    a cell held before, the same cell when it lies outside [l..r]. *)
Lemma swaps_source (l r : Z) (a b : list nat) (p : Z) :
  swaps l r a b -> inb a p ->
  exists q, inb a q /\ NpSort.get b p = NpSort.get a q /\
            ((l <= p <= r /\ l <= q <= r) \/ ((p < l \/ r < p) /\ q = p)).
Proof.
  intros Hsw Hp.
  destruct (Z_lt_le_dec p l) as [L | L].
  - exists p. split; [exact Hp|]. split; [|right; lia].
    eapply swaps_outside; [exact Hsw | unfold inb in Hp; lia | lia].
  - destruct (Z_lt_le_dec r p) as [R | R].
    + exists p. split; [exact Hp|]. split; [|right; lia].
      eapply swaps_outside; [exact Hsw | unfold inb in Hp; lia | lia].
    + destruct (swaps_inside l r a b p Hsw Hp ltac:(lia)) as (q & Hq & Hlq & E).
      exists q. split; [exact Hq|]. split; [exact E | left; lia].
Qed.

Lemma sort_step (n l r : Z) (a b : list nat) (P : list (Z * Z)) :
  segments_ok n ((l, r) :: P) ->
  ordered_but n a ((l, r) :: P) ->
  swaps l r a b -> seg_sorted v b l r ->
  ordered_but n b P.
Proof.
  intros [Hb Hd] [Hlen Hord] Hsw Hso.
  apply FOP_cons_inv in Hd as [Hap Hd'].
  apply Forall_cons_iff in Hb as [Hlr Hb']. cbn [fst snd] in Hlr.
  split; [rewrite (swaps_length _ _ _ _ Hsw); exact Hlen|].
  intros i j Hi Hij Hj Hfree.
  destruct (swaps_source l r a b i Hsw ltac:(unfold inb; lia))
    as (i' & Ii & Ei & Ci).
  destruct (swaps_source l r a b j Hsw ltac:(unfold inb; lia))
    as (j' & Ij & Ej & Cj).
  destruct Ci as [[Ci1 Ci2] | [Ci1 ->]], Cj as [[Cj1 Cj2] | [Cj1 ->]].
  - apply Hso; lia.
  - unfold SortSpec.K. rewrite Ei, Ej. apply Hord; try (unfold inb in *; lia).
    intros s [<- | Hs]; cbn [fst snd]; [lia|].
    rewrite Forall_forall in Hap. specialize (Hap s Hs).
    unfold apart in Hap. cbn [fst snd] in Hap. lia.
  - unfold SortSpec.K. rewrite Ei, Ej. apply Hord; try (unfold inb in *; lia).
    intros s [<- | Hs]; cbn [fst snd]; [lia|].
    rewrite Forall_forall in Hap. specialize (Hap s Hs).
    unfold apart in Hap. cbn [fst snd] in Hap. lia.
  - unfold SortSpec.K. rewrite Ei, Ej. apply Hord; try lia.
    intros s [<- | Hs]; cbn [fst snd]; [lia|]. now apply Hfree.
Qed.

Lemma partition_step (n l r pi : Z) (a b : list nat) (P : list (Z * Z))
  (s1 s2 : Z * Z) :
  (s1 = (l, pi - 1) /\ s2 = (pi + 1, r)) \/
  (s1 = (pi + 1, r) /\ s2 = (l, pi - 1)) ->
  segments_ok n ((l, r) :: P) ->
  ordered_but n a ((l, r) :: P) ->
  swaps l r a b -> l < pi < r ->
  (forall k, l <= k < pi -> nle (K b k) (K b pi)) ->
  (forall k, pi < k <= r -> nle (K b pi) (K b k)) ->
  segments_ok n (s1 :: s2 :: P) /\ ordered_but n b (s1 :: s2 :: P).
Proof.
  intros Hs [Hb Hd] [Hlen Hord] Hsw Hpi Hlo Hhi.
  apply FOP_cons_inv in Hd as [Hap Hd'].
  apply Forall_cons_iff in Hb as [Hlr Hb']. cbn [fst snd] in Hlr.
  assert (Hap' : forall t, In t P -> r < fst t \/ snd t < l).
  { intros t Ht. rewrite Forall_forall in Hap. exact (Hap t Ht). }
  split.
  - split.
    + destruct Hs as [[-> ->] | [-> ->]]; repeat constructor;
        cbn [fst snd]; try lia; exact Hb'.
    + destruct Hs as [[-> ->] | [-> ->]].
      * constructor; [|constructor; [|exact Hd']].
        -- constructor; [unfold apart; cbn [fst snd]; lia|].
           apply Forall_forall. intros t Ht. specialize (Hap' t Ht).
           unfold apart; cbn [fst snd]; lia.
        -- apply Forall_forall. intros t Ht. specialize (Hap' t Ht).
           unfold apart; cbn [fst snd]; lia.
      * constructor; [|constructor; [|exact Hd']].
        -- constructor; [unfold apart; cbn [fst snd]; lia|].
           apply Forall_forall. intros t Ht. specialize (Hap' t Ht).
           unfold apart; cbn [fst snd]; lia.
        -- apply Forall_forall. intros t Ht. specialize (Hap' t Ht).
           unfold apart; cbn [fst snd]; lia.
  - split; [rewrite (swaps_length _ _ _ _ Hsw); exact Hlen|].
    intros i j Hi Hij Hj Hfree.
    assert (F1 : ~ (l <= i /\ j <= pi - 1)).
    { specialize (Hfree (l, pi - 1)). cbn [fst snd] in Hfree.
      apply Hfree. destruct Hs as [[-> ->] | [-> ->]]; simpl; auto. }
    assert (F2 : ~ (pi + 1 <= i /\ j <= r)).
    { specialize (Hfree (pi + 1, r)). cbn [fst snd] in Hfree.
      apply Hfree. destruct Hs as [[-> ->] | [-> ->]]; simpl; auto. }
    assert (F3 : forall t, In t P -> ~ (fst t <= i /\ j <= snd t)).
    { intros t Ht. apply Hfree. now do 2 right. }
    destruct (swaps_source l r a b i Hsw ltac:(unfold inb; lia))
      as (i' & Ii & Ei & Ci).
    destruct (swaps_source l r a b j Hsw ltac:(unfold inb; lia))
      as (j' & Ij & Ej & Cj).
    destruct Ci as [[Ci1 Ci2] | [Ci1 ->]], Cj as [[Cj1 Cj2] | [Cj1 ->]].
    + destruct (Z.eq_dec i pi) as [-> | Ni]; [apply Hhi; lia|].
      destruct (Z.eq_dec j pi) as [-> | Nj]; [apply Hlo; lia|].
      apply nle_trans with (K b pi); [apply Hlo | apply Hhi]; lia.
    + unfold SortSpec.K. rewrite Ei, Ej. apply Hord; try (unfold inb in *; lia).
      intros s [<- | Hs']; cbn [fst snd]; [lia|].
      specialize (Hap' s Hs'). lia.
    + unfold SortSpec.K. rewrite Ei, Ej. apply Hord; try (unfold inb in *; lia).
      intros s [<- | Hs']; cbn [fst snd]; [lia|].
      specialize (Hap' s Hs'). lia.
    + unfold SortSpec.K. rewrite Ei, Ej. apply Hord; try lia.
      intros s [<- | Hs']; cbn [fst snd]; [lia|]. now apply F3.
Qed.

Lemma aquicksort_loop_spec (n : Z) (fuel : nat) (a : list nat)
  (pl pr cdepth : Z) (stack : list (Z * Z * Z)) (check : bool) :
  segments_ok n (pending pl pr stack) ->
  ordered_but n a (pending pl pr stack) ->
  cost (pending pl pr stack) <= Z.of_nat fuel ->
  let b := NpSort.aquicksort_loop v fuel a pl pr cdepth stack check in
  ordered_but n b [] /\ (forall x, In x a -> In x b).
Proof.
  revert a pl pr cdepth stack check.
  induction fuel as [| f IH];
    intros a pl pr cdepth stack check Hok Hinv Hcost.
  - exfalso. destruct Hok as [Hb _]. unfold pending in *.
    apply Forall_cons_iff in Hb as [Hs Hb']. cbn [fst snd] in Hs.
    pose proof (cost_nonneg n _ Hb'). cbn [cost fst snd] in Hcost. lia.
  - assert (Hb0 := proj1 Hok). unfold pending in Hb0.
    apply Forall_cons_iff in Hb0 as [Hcur Hrest]. cbn [fst snd] in Hcur.
    assert (Hlen := proj1 Hinv).
    (* what happens once the current segment is sorted *)
    assert (Hpop : forall b,
      swaps pl pr a b -> seg_sorted v b pl pr ->
      let c := match stack with
               | [] => b
               | (l, r, d) :: st => NpSort.aquicksort_loop v f b l r d st true
               end in
      ordered_but n c [] /\ (forall x, In x a -> In x c)).
    { intros b Hsw Hso.
      pose proof (sort_step n pl pr a b _ Hok Hinv Hsw Hso) as Hinv'.
      destruct stack as [| [[l r] d] st]; cbv zeta.
      - split; [exact Hinv'|]. intros x. now apply swaps_In with pl pr.
      - destruct (IH b l r d st true) as [H1 H2].
        + destruct Hok as [Hb Hd]. unfold pending in *. cbn [map fst] in *.
          split; [now apply Forall_cons_iff in Hb | now apply FOP_cons_inv in Hd].
        + exact Hinv'.
        + unfold pending in *. cbn [map fst cost snd] in *.
          pose proof (cost_nonneg n _ Hrest) as Hc. cbn [map fst cost snd] in Hc.
          lia.
        + split; [exact H1|]. intros x Hx. apply H2.
          now apply swaps_In with pl pr a. }
    cbn [NpSort.aquicksort_loop].
    destruct (check && (cdepth <? 0)).
    + destruct (aheapsort_spec v a pl (pr - pl + 1)) as [Hsw Hso]; try lia.
      replace (pl + (pr - pl + 1) - 1) with pr in * by lia.
      exact (Hpop _ Hsw Hso).
    + destruct (Z.gtb_spec (pr - pl) NpSort.SMALL_QUICKSORT) as [G | G].
      * unfold NpSort.SMALL_QUICKSORT in G.
        pose proof (partition_spec v a pl pr) as HP.
        destruct (NpSort.partition v a pl pr) as [b pi].
        destruct HP as (Hsw & Hpi & Hlo & Hhi); try lia.
        destruct (Z.ltb_spec (pi - pl) (pr - pi)) as [C | C].
        -- destruct (partition_step n pl pr pi a b (map fst stack)
                       (pl, pi - 1) (pi + 1, pr)) as [Hok' Hinv'];
             auto.
           destruct (IH b pl (pi - 1) (cdepth - 1)
                        ((pi + 1, pr, cdepth - 1) :: stack) false)
             as [H1 H2]; try assumption.
           { unfold pending in *. cbn [map fst cost snd] in *. lia. }
           split; [exact H1|]. intros x Hx. apply H2.
           now apply swaps_In with pl pr a.
        -- destruct (partition_step n pl pr pi a b (map fst stack)
                       (pi + 1, pr) (pl, pi - 1)) as [Hok' Hinv'];
             auto.
           destruct (IH b (pi + 1) pr (cdepth - 1)
                        ((pl, pi - 1, cdepth - 1) :: stack) false)
             as [H1 H2]; try assumption.
           { unfold pending in *. cbn [map fst cost snd] in *. lia. }
           split; [exact H1|]. intros x Hx. apply H2.
           now apply swaps_In with pl pr a.
      * destruct (insertion_sort_spec v a pl pr) as [Hsw Hso]; try lia.
        exact (Hpop _ Hsw Hso).
Qed.

End LoopProofs.

Lemma pointwise_StronglySorted {A : Type} (R : A -> A -> Prop) (d : A)
  (l : list A) :
  (forall i j, (i < j)%nat -> (j < length l)%nat -> R (nth i l d) (nth j l d)) ->
  StronglySorted R l.
Proof.
  induction l as [| x l IH]; intros H; constructor.
  - apply IH. intros i j Hij Hj. apply (H (S i) (S j)); simpl; lia.
  - apply Forall_forall. intros y Hy.
    apply (In_nth _ _ d) in Hy as (k & Hk & <-).
    apply (H 0%nat (S k)); simpl; lia.
Qed.

(** numpy's quicksort keeps the promise of [argsort] on every key array
    without NaN. *)
Theorem argsort_quicksort_ok (v : list fl) :
  Forall (fun x => Fl.isnan x = false) v ->
  argsort_ok v (NpSort.argsort_quicksort v).
Proof.
  intros Hv. unfold NpSort.argsort_quicksort. cbv zeta.
  set (n := Z.of_nat (length v)).
  destruct (aquicksort_loop_spec v n (2 * length v + 2) (seq 0 (length v))
              0 (n - 1) (NpSort.depth_limit n) [] true) as [[Hlen Hord] Hin].
  - split.
    + repeat constructor; cbn [fst snd]; lia.
    + repeat constructor.
  - split; [now rewrite length_seq|].
    intros i j Hi Hij Hj Hfree. exfalso.
    apply (Hfree (0, n - 1)); [now left | cbn [fst snd]; lia].
  - unfold pending. cbn [map cost fst snd]. lia.
  - set (b := NpSort.aquicksort_loop v (2 * length v + 2) (seq 0 (length v))
                0 (n - 1) (NpSort.depth_limit n) [] true) in *.
    assert (Hperm : Permutation b (seq 0 (length v))).
    { symmetry. apply NoDup_Permutation_bis.
      - apply seq_NoDup.
      - rewrite length_seq. lia.
      - intros x Hx. now apply Hin. }
    split; [exact Hperm|].
    apply (pointwise_StronglySorted _ 0%nat).
    intros i j Hij Hj.
    assert (Hrange : forall k, (k < length b)%nat ->
                               Fl.isnan (nth (nth k b 0%nat) v NaN) = false).
    { intros k Hk.
      assert (Hk' : In (nth k b 0%nat) (seq 0 (length v))).
      { apply (Permutation_in _ Hperm). now apply nth_In. }
      apply in_seq in Hk'. rewrite Forall_forall in Hv.
      apply Hv. apply nth_In. lia. }
    apply nle_leb; try (apply Hrange; lia).
    specialize (Hord (Z.of_nat i) (Z.of_nat j)).
    unfold SortSpec.K, NpSort.key, NpSort.get in Hord.
    rewrite !Nat2Z.id in Hord. apply Hord; try lia.
    intros s [].
Qed.

(** ** Sorting a frame in descending order *)

Lemma all_nan_sorted (l : list fl) :
  Forall (fun x => Fl.isnan x = true) l -> StronglySorted desc_nan_last l.
Proof.
  induction 1 as [| x l Hx H IH]; constructor; [exact IH|].
  eapply Forall_impl; [|exact H]. intros y Hy. now left.
Qed.

Lemma select_positions_0 (p : fl -> bool) (items : list fl) :
  Forall2 (fun i k => nth_error items i = Some k)
          (select (map p items) (seq 0 (length items)))
          (filter p items).
Proof.
  rewrite <- select_map_filter. exact (select_positions p [] items).
Qed.

Lemma nargsort_descending (kind : list fl -> list nat) (items : list fl) :
  argsort_ok (descending_keys items) (kind (descending_keys items)) ->
  Permutation (nargsort kind items false) (seq 0 (length items)) /\
  StronglySorted desc_nan_last
    (map (fun i => nth i items NaN) (nargsort kind items false)).
Proof.
  intros [Hperm Hsorted].
  unfold nargsort. cbv zeta.
  rewrite map_map.
  rewrite (select_map_filter (fun x => negb (Fl.isnan x)) items).
  change (filter (fun x => negb (Fl.isnan x)) items) with (Series.dropna items).
  change (rev (Series.dropna items)) with (descending_keys items).
  set (K := descending_keys items) in *.
  set (pos := select (map (fun x => negb (Fl.isnan x)) items)
                     (seq 0 (length items))).
  set (L := rev pos).
  set (nan_idx := select (map Fl.isnan items) (seq 0 (length items))).
  set (g := fun i => nth i items NaN).
  assert (F2 : Forall2 (fun i k => nth_error items i = Some k) L K).
  { apply Forall2_rev. apply select_positions_0. }
  assert (FN : Forall2 (fun i k => nth_error items i = Some k)
                       nan_idx (filter Fl.isnan items)).
  { apply select_positions_0. }
  assert (HLK : length L = length K) by (eapply Forall2_length_eq; eassumption).
  assert (Hin : forall j, In j (kind K) -> (j < length K)%nat).
  { intros j Hj. apply (Permutation_in _ Hperm) in Hj.
    apply in_seq in Hj. lia. }
  assert (Hkey : forall j, In j (kind K) -> g (nth j L 0%nat) = nth j K NaN).
  { intros j Hj. apply Hin in Hj.
    destruct (nth_error K j) as [b|] eqn:Eb;
      [|apply nth_error_None in Eb; lia].
    destruct (Forall2_nth_error_eq _ _ _ _ _ F2 Eb) as (a & Ea & Hab).
    rewrite (nth_error_nth _ _ _ Ea), (nth_error_nth _ _ _ Eb).
    unfold g. now apply nth_error_nth. }
  split.
  - (* every position once *)
    assert (P0 : Permutation (map (fun i => nth i L 0%nat) (kind K)) L).
    { apply Permutation_trans
        with (map (fun i => nth i L 0%nat) (seq 0 (length K))).
      - now apply Permutation_map.
      - rewrite <- HLK, map_nth_seq. reflexivity. }
    rewrite <- Permutation_rev, P0. unfold L. rewrite <- Permutation_rev.
    unfold pos, nan_idx. rewrite <- (map_map Fl.isnan negb).
    apply select_partition. now rewrite length_map, length_seq.
  - (* descending keys, NaN last *)
    rewrite map_app, map_rev, map_map.
    rewrite (map_ext_in _ (fun j => nth j K NaN) _ Hkey).
    apply StronglySorted_app.
    + apply (StronglySorted_weaken (fun x y => Fl.leb y x = true)).
      * intros x y _ _ H. now right.
      * apply (StronglySorted_rev (fun x y => Fl.leb x y = true)).
        now apply StronglySorted_map.
    + apply all_nan_sorted. apply Forall_map. apply Forall_forall.
      intros i Hi. apply In_nth_error in Hi as [n Hn].
      assert (Hlen := Forall2_length_eq _ _ _ FN).
      destruct (nth_error (filter Fl.isnan items) n) as [b|] eqn:Eb.
      * destruct (Forall2_nth_error_eq _ _ _ _ _ FN Eb) as (a & Ea & Hab).
        assert (a = i) by congruence. subst a.
        unfold g. rewrite (nth_error_nth _ _ _ Hab).
        apply nth_error_In in Eb. apply filter_In in Eb. tauto.
      * apply nth_error_None in Eb.
        assert (n < length nan_idx)%nat
          by (apply nth_error_Some; congruence).
        lia.
    + intros x y _ Hy. left.
      apply in_map_iff in Hy as (i & <- & Hi).
      apply In_nth_error in Hi as [n Hn].
      assert (Hlen := Forall2_length_eq _ _ _ FN).
      destruct (nth_error (filter Fl.isnan items) n) as [b|] eqn:Eb.
      * destruct (Forall2_nth_error_eq _ _ _ _ _ FN Eb) as (a & Ea & Hab).
        assert (a = i) by congruence. subst a.
        unfold g. rewrite (nth_error_nth _ _ _ Hab).
        apply nth_error_In in Eb. apply filter_In in Eb. tauto.
      * apply nth_error_None in Eb.
        assert (n < length nan_idx)%nat
          by (apply nth_error_Some; congruence).
        lia.
Qed.

(** ** rank_campaigns *)

Lemma range_length (lo hi : Z) : length (range lo hi) = Z.to_nat (hi - lo).
Proof. unfold range. now rewrite length_map, length_seq. Qed.

Lemma range_from_1 (n : nat) :
  range 1 (Z.of_nat n + 1) = map Z.of_nat (seq 1 n).
Proof.
  unfold range. replace (Z.to_nat (Z.of_nat n + 1 - 1)) with n by lia.
  rewrite <- seq_shift, map_map. apply map_ext. intros k. lia.
Qed.

Lemma map_fst_combine {A B : Type} (l : list A) (k : list B) :
  length l = length k -> map fst (combine l k) = l.
Proof.
  revert k. induction l as [| x l IH]; intros [| y k] H; simpl in *;
    try discriminate; [reflexivity|].
  f_equal. apply IH. congruence.
Qed.

Lemma map_snd_combine {A B : Type} (l : list A) (k : list B) :
  length l = length k -> map snd (combine l k) = k.
Proof.
  revert k. induction l as [| x l IH]; intros [| y k] H; simpl in *;
    try discriminate; [reflexivity|].
  f_equal. apply IH. congruence.
Qed.

Lemma rank_campaigns_by_metrics (kind : list fl -> list nat)
  (df : list CampaignMetrics) :
  map metrics (rank_campaigns_by kind df) = sort_values kind ROI false df.
Proof.
  unfold rank_campaigns_by. cbv zeta. rewrite map_map. cbn [metrics].
  rewrite <- (map_map snd (fun x => x)), map_id.
  apply map_snd_combine. rewrite range_length. lia.
Qed.

Lemma rank_campaigns_by_rank (kind : list fl -> list nat)
  (df : list CampaignMetrics) :
  map rank (rank_campaigns_by kind df) =
  map Z.of_nat (seq 1 (length (sort_values kind ROI false df))).
Proof.
  unfold rank_campaigns_by. cbv zeta. rewrite map_map. cbn [rank].
  rewrite <- range_from_1.
  rewrite <- (map_map fst (fun x => x)), map_id.
  apply map_fst_combine. rewrite range_length. lia.
Qed.

Lemma take_rows_In {A : Type} (df : list A) (idx : list nat) (x : A) :
  In x (take_rows df idx) -> In x df.
Proof.
  unfold take_rows. rewrite in_flat_map. intros (i & _ & Hx).
  destruct (nth_error df i) as [y|] eqn:E; [|destruct Hx].
  destruct Hx as [<- | []]. eapply nth_error_In; eassumption.
Qed.

(** Whatever [kind] does, the ranked rows are rows of the input. *)
Lemma rank_campaigns_by_In (kind : list fl -> list nat)
  (df : list CampaignMetrics) (row : RankedCampaign) :
  In row (rank_campaigns_by kind df) -> In (metrics row) df.
Proof.
  intros H. apply (in_map metrics) in H.
  rewrite rank_campaigns_by_metrics in H.
  unfold sort_values in H. eapply take_rows_In; eassumption.
Qed.

(** The ranking, given that [argsort] kept its promise on the key array
    it received. *)
Lemma rank_campaigns_by_sorted (kind : list fl -> list nat)
  (df : list CampaignMetrics) :
  argsort_ok (descending_keys (map ROI df))
             (kind (descending_keys (map ROI df))) ->
  Permutation (map metrics (rank_campaigns_by kind df)) df /\
  StronglySorted desc_nan_last (map roi_of (rank_campaigns_by kind df)).
Proof.
  intros Hok.
  destruct (nargsort_descending kind (map ROI df) Hok) as [Hperm Hsorted].
  rewrite length_map in Hperm.
  assert (Hrange : Forall (fun i => (i < length df)%nat)
                          (nargsort kind (map ROI df) false)).
  { apply Forall_forall. intros i Hi.
    apply (Permutation_in _ Hperm) in Hi. apply in_seq in Hi. lia. }
  split.
  - rewrite rank_campaigns_by_metrics. unfold sort_values.
    now apply take_rows_Permutation.
  - unfold roi_of. rewrite <- (map_map metrics ROI).
    rewrite rank_campaigns_by_metrics. unfold sort_values.
    rewrite (take_rows_map ROI NaN) by assumption.
    exact Hsorted.
Qed.

(** The keys that a descending sort hands to [argsort] hold no NaN. *)
Lemma descending_keys_no_nan (items : list fl) :
  Forall (fun x => Fl.isnan x = false) (descending_keys items).
Proof.
  unfold descending_keys, Series.dropna. apply Forall_rev.
  apply Forall_forall. intros x Hx. apply filter_In in Hx as [_ Hx].
  now apply negb_true_iff.
Qed.

Lemma rank_campaigns_ok (df : list CampaignMetrics) :
  Permutation (map metrics (rank_campaigns df)) df /\
  StronglySorted desc_nan_last (map roi_of (rank_campaigns df)).
Proof.
  apply rank_campaigns_by_sorted.
  apply argsort_quicksort_ok. apply descending_keys_no_nan.
Qed.

(** The same ranking properties for any [argsort] routine that keeps
    its promise on the key array it receives. *)
Lemma rank_campaigns_by_any_kind (kind : list fl -> list nat)
  (df : list CampaignMetrics) :
  argsort_ok (descending_keys (map ROI df))
             (kind (descending_keys (map ROI df))) ->
  length (rank_campaigns_by kind df) = length df /\
  map rank (rank_campaigns_by kind df) = map Z.of_nat (seq 1 (length df)) /\
  Permutation (map metrics (rank_campaigns_by kind df)) df /\
  StronglySorted desc_nan_last (map roi_of (rank_campaigns_by kind df)).
Proof.
  intros Hok.
  destruct (rank_campaigns_by_sorted kind df Hok) as [Hperm Hsorted].
  assert (Hlen : length (sort_values kind ROI false df) = length df).
  { rewrite <- rank_campaigns_by_metrics.
    now apply Permutation_length. }
  split.
  - rewrite <- (length_map metrics). now apply Permutation_length.
  - split; [|split; assumption].
    now rewrite rank_campaigns_by_rank, Hlen.
Qed.

(** C2, as amended.  The ranker returns as many rows as it was given,
    the same rows in another order, with ranks 1..N in sequence, sorted
    by ROI in descending order with the NaN ROIs last.  Nothing is
    promised about the order of rows with equal ROI. *)
Theorem rank_campaigns_sorted (df : list CampaignMetrics) :
  length (rank_campaigns df) = length df /\
  map rank (rank_campaigns df) = map Z.of_nat (seq 1 (length df)) /\
  Permutation (map metrics (rank_campaigns df)) df /\
  StronglySorted desc_nan_last (map roi_of (rank_campaigns df)).
Proof.
  apply rank_campaigns_by_any_kind.
  apply argsort_quicksort_ok. apply descending_keys_no_nan.
Qed.

(** C2, as stated, fails: the eighteen tied campaigns do not come out in
    their input order. *)
Lemma rank_campaigns_not_stable :
  ~ keeps_tie_order tied_campaigns (rank_campaigns tied_campaigns).
Proof.
  intros H. specialize (H (Fin 150)).
  apply (f_equal (map (fun m => campaign_name (record m)))) in H.
  vm_compute in H. discriminate H.
Qed.

(** ** Where the rounding sits *)

(** C4, as stated, fails.  Q has the larger ROI before rounding, so a
    ranking on the unrounded values puts Q first, and Q, with the
    smaller spend, would be a quick win.  Both ROIs round to -99.83: the
    ranker, which receives the rounded column, keeps P first, the median
    ROI that the classifier compares with is the median of the rounded
    values, and no quick win is found. *)
Lemma downstream_uses_rounded_values :
  Fl.ltb (ROI (derive_metrics campaign_P)) (ROI (derive_metrics campaign_Q))
  = true /\
  ranked_names (rank_full_precision [campaign_P; campaign_Q])
  = ["Q"%string; "P"%string] /\
  ranked_names (rank_campaigns (calculate_metrics [campaign_P; campaign_Q]))
  = ["P"%string; "Q"%string] /\
  Series.median
    (col ROI (rank_campaigns (calculate_metrics [campaign_P; campaign_Q])))
  = Fin (-9983 # 100) /\
  Series.median (col ROI (rank_full_precision [campaign_P; campaign_Q]))
  = Fin (-35938801 # 359988) /\
  ranked_names (select_quick_wins (rank_full_precision [campaign_P; campaign_Q]))
  = ["Q"%string] /\
  quick_wins (analyze [campaign_P; campaign_Q]) = NoQuickWins.
Proof. vm_compute. repeat split; reflexivity. Qed.

Lemma col_rounded (f : CampaignMetrics -> fl) (df : list RankedCampaign) :
  (forall row, In row df ->
               f (metrics row) = Fl.round (f (metrics row)) 2) ->
  col f df = map (fun x => Fl.round x 2) (col f df).
Proof.
  intros H. unfold col. rewrite map_map. now apply map_ext_in.
Qed.

(** C4, as amended.  The rounding to two decimals is applied to the
    metric columns that [calculate_metrics] returns: every row that the
    ranker and the classifier receive carries the rounded metrics of an
    input row, so the columns from which the ranking order, the medians
    and the 75th percentile are computed, and the CPA that is compared
    with the average CPA, are the rounded ones.  The average CPA itself
    is computed from the spend and conversions columns. *)
Theorem downstream_sees_rounded_metrics (df : list CampaignRecord) :
  (forall row, In row (rank_campaigns (calculate_metrics df)) ->
     exists r, In r df /\ metrics row = round_metrics (derive_metrics r)) /\
  (let ranked := rank_campaigns (calculate_metrics df) in
   col ROI ranked = map (fun x => Fl.round x 2) (col ROI ranked) /\
   col CTR ranked = map (fun x => Fl.round x 2) (col CTR ranked) /\
   col conversion_rate ranked =
     map (fun x => Fl.round x 2) (col conversion_rate ranked) /\
   col CPA ranked = map (fun x => Fl.round x 2) (col CPA ranked) /\
   avg_cpa (budget (generate_recommendations ranked)) =
     Fl.div (Series.sum (col_spend ranked))
            (Fl.of_Z (Series.sum_int (col_conversions ranked)))).
Proof.
  assert (Hrow : forall row,
             In row (rank_campaigns (calculate_metrics df)) ->
             exists r, In r df /\
                       metrics row = round_metrics (derive_metrics r)).
  { intros row Hin. apply rank_campaigns_by_In in Hin.
    unfold calculate_metrics in Hin. apply in_map_iff in Hin.
    destruct Hin as (r & E & Hr). eauto. }
  split; [exact Hrow|]. cbv zeta.
  generalize dependent (rank_campaigns (calculate_metrics df)).
  intros ranked Hrow.
  assert (Hcol : forall f,
             (forall m, f (round_metrics m) = Fl.round (f m) 2) ->
             col f ranked = map (fun x => Fl.round x 2) (col f ranked)).
  { intros f Hf. apply col_rounded. intros row Hin.
    destruct (Hrow row Hin) as (r & _ & ->).
    now rewrite Hf, round_idempotent. }
  split; [now apply Hcol|]. split; [now apply Hcol|].
  split; [now apply Hcol|]. split; [now apply Hcol|].
  reflexivity.
Qed.

(** ** Comparisons *)

Lemma ltb_nan_l (y : fl) : Fl.ltb NaN y = false.
Proof. reflexivity. Qed.

Lemma ltb_nan_r (x : fl) : Fl.ltb x NaN = false.
Proof. destruct x; reflexivity. Qed.

Lemma isnan_eq (x : fl) : Fl.isnan x = true -> x = NaN.
Proof. destruct x; simpl; congruence. Qed.


(** ** The classifier's sections *)

Lemma quick_win_rows_report (rows : list RankedCampaign) :
  quick_win_rows (report_quick_wins rows) = rows.
Proof. destruct rows; reflexivity. Qed.

(** C10.  A comparison with NaN is false whichever side the NaN is on,
    so a row with a NaN CTR or a NaN conversion rate is never in the
    high-traffic/low-conversion section, a row with a NaN CPA is in
    neither budget partition, and a row with a NaN ROI is never among
    the quick wins; with such a row the two partition counts sum to
    less than the number of rows. *)
Theorem nan_rows_excluded (df : list RankedCampaign) (row : RankedCampaign) :
  (forall x, Fl.ltb NaN x = false /\ Fl.ltb x NaN = false /\
             Fl.gtb NaN x = false /\ Fl.gtb x NaN = false) /\
  (Fl.isnan (CTR (metrics row)) = true \/
   Fl.isnan (conversion_rate (metrics row)) = true ->
   ~ In row (high_ctr_low_conv (generate_recommendations df))) /\
  (Fl.isnan (CPA (metrics row)) = true ->
   ~ In row (efficient_campaigns (budget (generate_recommendations df))) /\
   ~ In row (inefficient_campaigns (budget (generate_recommendations df)))) /\
  (Fl.isnan (ROI (metrics row)) = true ->
   ~ In row (quick_win_rows (quick_wins (generate_recommendations df)))) /\
  (let b := budget (analyze [campaign_A; campaign_B; idle_campaign]) in
   map (fun r => Fl.isnan (CPA r))
       (calculate_metrics [campaign_A; campaign_B; idle_campaign])
   = [false; false; true] /\
   length (efficient_campaigns b) = 1%nat /\
   length (inefficient_campaigns b) = 1%nat).
Proof.
  split; [|split; [|split; [|split]]].
  - intros x. unfold Fl.gtb. rewrite ltb_nan_r. auto.
  - cbn [generate_recommendations high_ctr_low_conv].
    unfold select_high_ctr_low_conv. rewrite filter_In, andb_true_iff.
    unfold Fl.gtb.
    intros [H | H] (_ & H1 & H2); apply isnan_eq in H; rewrite H in *.
    + now rewrite ltb_nan_r in H1.
    + discriminate H2.
  - cbn [generate_recommendations budget]. unfold budget_insight.
    cbn [efficient_campaigns inefficient_campaigns].
    intros H. apply isnan_eq in H. rewrite !filter_In, H. unfold Fl.gtb.
    rewrite ltb_nan_r. split; intros [_ H']; discriminate H'.
  - cbn [generate_recommendations quick_wins].
    rewrite quick_win_rows_report. unfold select_quick_wins.
    rewrite filter_In, andb_true_iff. unfold Fl.gtb.
    intros H (_ & H1 & _). apply isnan_eq in H. rewrite H in H1.
    now rewrite ltb_nan_r in H1.
  - vm_compute. repeat split; reflexivity.
Qed.

(** * Properties of the script on binary64 numbers *)

(** ** binary64: rounding, zero divisors, integers *)

Lemma round_2 (x : float) :
  F64.round x 2 = (F64.rint (x * 100) / 100)%float.
Proof. reflexivity. Qed.

Lemma round_2_cents (x : float) : rounded_to_cents x (F64.round x 2).
Proof.
  rewrite round_2. unfold rounded_to_cents, F64.rint. cbv zeta.
  destruct (F64.value (x * 100)) as [q | | |]; try reflexivity.
  destruct (Qle_bool (inject_Z (2 ^ 52)) (Qabs q)); [reflexivity|].
  exists (Fl.rint q). destruct (rint_spec q) as [H1 H2].
  repeat split; assumption.
Qed.

Lemma div_by_zero64 (x y : float) (s : bool) :
  Prim2SF y = S754_zero s -> (x / y)%float = quotient_by_zero x s.
Proof.
  intros Hy. apply Prim2SF_inj. rewrite div_spec, Hy.
  unfold quotient_by_zero, SF64div, SFdiv.
  destruct (Prim2SF x) as [sx | sx | | sx m e]; try reflexivity;
    destruct (xorb sx s); reflexivity.
Qed.

Lemma quotient_by_zero_special (x : float) (s : bool) :
  quotient_by_zero x s = nan \/ quotient_by_zero x s = infinity \/
  quotient_by_zero x s = neg_infinity.
Proof.
  unfold quotient_by_zero.
  destruct (Prim2SF x) as [sx | sx | | sx m e]; auto;
    destruct (xorb sx s); auto.
Qed.

(** A NaN or an infinity goes through [* 100] and the rounding
    unchanged. *)
Lemma round_special (x : float) :
  x = nan \/ x = infinity \/ x = neg_infinity ->
  F64.round x 2 = x /\ F64.round (x * 100) 2 = x.
Proof. intros [-> | [-> | ->]]; split; reflexivity. Qed.

Lemma quotient_by_zero_not_finite (x : float) (s : bool) :
  F64.isfinite (quotient_by_zero x s) = false.
Proof.
  destruct (quotient_by_zero_special x s) as [-> | [-> | ->]]; reflexivity.
Qed.

Lemma signed_quotient_not_finite (c : comparison) (s : bool) :
  F64.isfinite (signed_quotient c s) = false.
Proof. destruct c, s; reflexivity. Qed.

Lemma Prim2SF_zero : Prim2SF zero = S754_zero false.
Proof. reflexivity. Qed.

Lemma of_int64_0 : F64.of_int64 0 = zero.
Proof. reflexivity. Qed.

Lemma wrap64_small (z : Z) : - 2 ^ 63 <= z < 2 ^ 63 -> F64.wrap64 z = z.
Proof.
  intros H. unfold F64.wrap64.
  rewrite Z.mod_small; lia.
Qed.


(** *** The float of an integer below 2^53 *)

Lemma digits2_size (p : positive) : digits2_pos p = Pos.size p.
Proof. induction p; simpl; congruence. Qed.

Lemma digits2_bound (p : positive) :
  Z.pos p < 2 ^ 53 -> Z.pos (digits2_pos p) <= 53.
Proof.
  intros H. rewrite digits2_size.
  destruct (Z.le_gt_cases (Z.pos (Pos.size p)) 53) as [L | G]; [exact L|].
  exfalso.
  pose proof (Pos.size_le p) as Hs.
  assert (2 ^ 54 <= Z.pos (2 ^ Pos.size p)).
  { rewrite Pos2Z.inj_pow. apply Z.pow_le_mono_r; lia. }
  assert (Z.pos (2 ^ Pos.size p) <= Z.pos (p~0))
    by (apply Pos2Z.pos_le_pos; exact Hs).
  change (2 ^ 54) with (2 * 2 ^ 53) in *. lia.
Qed.

Lemma digits2_iter_xO (p k : positive) :
  digits2_pos (Pos.iter xO p k) = (digits2_pos p + k)%positive.
Proof.
  induction k as [| k IH] using Pos.peano_ind.
  - simpl. lia.
  - rewrite Pos.iter_succ. simpl. rewrite IH. lia.
Qed.


(** The rounding of a positive integer below 2^53 to binary64 loses
    nothing. *)
Lemma binary_round_int (s : bool) (p : positive) :
  Z.pos p < 2 ^ 53 ->
  binary_round prec emax s p 0 = S754_finite s (int_mantissa p) (int_exponent p).
Proof.
  intros Hp. pose proof (digits2_bound p Hp) as Hd.
  unfold binary_round, int_mantissa, int_exponent.
  set (d := digits2_pos p) in *.
  assert (Hfexp : fexp prec emax (Z.pos d + 0) = Z.pos d - 53).
  { unfold fexp, emin, prec, emax. lia. }
  rewrite Hfexp. unfold shl_align.
  replace (Z.pos d - 53 - 0) with (Z.pos d - 53) by lia.
  destruct (Z.pos d - 53) as [| k | k] eqn:Ek; try lia.
  - (* 53 digits *)
    replace (53 - Z.pos d) with 0 by lia.
    unfold binary_round_aux, shr_fexp. cbn [Zdigits2].
    fold d. rewrite Hfexp. change (0 - 0) with 0.
    cbn [shr shr_record_of_loc shr_m loc_of_shr_record round_nearest_even
         Zdigits2].
    fold d. rewrite Hfexp. change (0 - 0) with 0.
    cbn [shr shr_record_of_loc shr_m]. reflexivity.
  - (* fewer digits: the mantissa is shifted to 53 digits *)
    replace (53 - Z.pos d) with (Z.pos k) by lia.
    unfold binary_round_aux, shr_fexp. cbn [Zdigits2].
    rewrite digits2_iter_xO. fold d.
    assert (Hf : fexp prec emax (Z.pos (d + k) + Z.neg k) = Z.neg k).
    { unfold fexp, emin, prec, emax. lia. }
    rewrite Hf. rewrite Z.sub_diag.
    cbn [shr shr_record_of_loc shr_m loc_of_shr_record round_nearest_even
         Zdigits2].
    rewrite digits2_iter_xO. fold d. rewrite Hf, Z.sub_diag.
    cbn [shr shr_record_of_loc shr_m].
    replace (Z.neg k <=? emax - prec) with true; [reflexivity|].
    symmetry. apply Z.leb_le. unfold emax, prec. lia.
Qed.

Lemma int_mantissa_digits (p : positive) :
  Z.pos p < 2 ^ 53 -> Z.pos (digits2_pos (int_mantissa p)) = 53.
Proof.
  intros Hp. pose proof (digits2_bound p Hp) as Hd. unfold int_mantissa.
  destruct (53 - Z.pos (digits2_pos p)) as [| k | k] eqn:Ek; try lia.
  rewrite digits2_iter_xO. lia.
Qed.


Lemma int_valid (s : bool) (p : positive) :
  Z.pos p < 2 ^ 53 ->
  valid_binary (S754_finite s (int_mantissa p) (int_exponent p)) = true.
Proof.
  intros Hp. pose proof (digits2_bound p Hp) as Hd.
  pose proof (int_mantissa_digits p Hp) as Hm.
  unfold valid_binary, SpecFloat.valid_binary, bounded, canonical_mantissa.
  rewrite Hm.
  unfold int_exponent, fexp, emin, prec, emax.
  apply andb_true_iff. split; [apply Z.eqb_eq | apply Z.leb_le]; lia.
Qed.

Lemma of_int64_spec (z : Z) :
  exact_int z ->
  Prim2SF (F64.of_int64 z) =
  match z with
  | 0 => S754_zero false
  | Z.pos p => S754_finite false (int_mantissa p) (int_exponent p)
  | Z.neg p => S754_finite true (int_mantissa p) (int_exponent p)
  end.
Proof.
  unfold exact_int. intros Hz. unfold F64.of_int64, binary_normalize.
  destruct z as [| p | p].
  - reflexivity.
  - rewrite binary_round_int by lia. apply Prim2SF_SF2Prim, int_valid. lia.
  - rewrite binary_round_int by lia. apply Prim2SF_SF2Prim, int_valid. lia.
Qed.



Lemma quotient_of_int (z : Z) (s : bool) :
  exact_int z ->
  quotient_by_zero (F64.of_int64 z) s = signed_quotient (z ?= 0) s.
Proof.
  intros Hz. unfold quotient_by_zero. rewrite of_int64_spec by exact Hz.
  destruct z; destruct s; reflexivity.
Qed.

(** Subtracting a zero leaves the sign and the class of an integer. *)
Lemma sub_zero_class (z : Z) (y : float) (s sy : bool) :
  exact_int z -> Prim2SF y = S754_zero sy ->
  quotient_by_zero (F64.of_int64 z - y) s = signed_quotient (z ?= 0) s.
Proof.
  intros Hz Hy. unfold quotient_by_zero.
  rewrite sub_spec, Hy, of_int64_spec by exact Hz.
  destruct z; destruct s; destruct sy; reflexivity.
Qed.

(** ** calculate_metrics *)

Lemma Forall2_map_r {A B : Type} (P : A -> B -> Prop) (f : A -> B)
  (l : list A) :
  (forall x, P x (f x)) -> Forall2 P l (map f l).
Proof. intros H. induction l; simpl; constructor; auto. Qed.


(** C9, as stated, fails.  With a spend of 23 on 40 clicks the cost per
    click is 0.575 exactly; rounding half to even gives 0.58, and the
    script returns the float 57/100, which is more than 0.005 away from
    0.575. *)
Lemma rounding_error_exceeds_half_cent :
  exists (m : Analyzer.CampaignMetrics) (v : Q),
    Analyzer.calculate_metrics [example_T] = [m] /\
    Analyzer.CPC m = (57 / 100)%float /\
    F64.value (Analyzer.CPC m) = Fin v /\
    (5 # 1000 < Qabs (v - (23 # 40)))%Q /\
    Fl.round (Fin (23 # 40)) 2 = Fin (29 # 50).
Proof.
  eexists. eexists. split; [vm_compute; reflexivity|].
  split; [vm_compute; reflexivity|].
  split; [vm_compute; reflexivity|].
  split; vm_compute; reflexivity.
Qed.

(** C9, as amended.  Every derived column of every returned row is
    [numpy.round(x, 2)] of the float [x] computed for it: the binary64
    product [x * 100] goes to the nearest integer, to the even one when
    the product is exactly half way, and that integer is divided by 100
    in binary64; a product that is infinite, NaN or at least 2^52 in
    magnitude is divided as it is.  The tie is a tie of the binary64
    product: 0.125 and 0.375 go to 0.12 and 0.38. *)
Theorem output_rounded_in_binary64 (df : list Analyzer.CampaignRecord) :
  Forall2 rounded_metrics df (Analyzer.calculate_metrics df) /\
  (F64.round 0.125 2 = 12 / 100 /\ F64.round 0.375 2 = 38 / 100)%float.
Proof.
  split; [|split; vm_compute; reflexivity].
  unfold Analyzer.calculate_metrics. apply Forall2_map_r.
  intros r. unfold rounded_metrics, Analyzer.round_metrics. cbv zeta.
  cbn [Analyzer.CTR Analyzer.CPC Analyzer.CPA Analyzer.conversion_rate
       Analyzer.ROI].
  repeat split; apply round_2_cents.
Qed.

(** ** rank_campaigns *)

Lemma sort_values_descending {A : Type} (by_ : A -> fl) (df : list A) :
  Permutation (sort_values NpSort.argsort_quicksort by_ false df) df /\
  StronglySorted desc_nan_last
    (map by_ (sort_values NpSort.argsort_quicksort by_ false df)).
Proof.
  assert (Hok : argsort_ok (descending_keys (map by_ df))
                  (NpSort.argsort_quicksort (descending_keys (map by_ df)))).
  { apply argsort_quicksort_ok, descending_keys_no_nan. }
  destruct (nargsort_descending _ (map by_ df) Hok) as [Hperm Hsorted].
  rewrite length_map in Hperm.
  assert (Hrange : Forall (fun i => (i < length df)%nat)
                     (nargsort NpSort.argsort_quicksort (map by_ df) false)).
  { apply Forall_forall. intros i Hi.
    apply (Permutation_in _ Hperm) in Hi. apply in_seq in Hi. lia. }
  unfold sort_values. split.
  - now apply take_rows_Permutation.
  - rewrite (take_rows_map by_ NaN) by assumption. exact Hsorted.
Qed.

Lemma rank_campaigns64_metrics (df : list Analyzer.CampaignMetrics) :
  map Analyzer.metrics (Analyzer.rank_campaigns df) =
  sort_values NpSort.argsort_quicksort
              (fun m => F64.value (Analyzer.ROI m)) false df.
Proof.
  unfold Analyzer.rank_campaigns. cbv zeta. rewrite map_map.
  cbn [Analyzer.metrics].
  rewrite <- (map_map snd (fun x => x)), map_id.
  apply map_snd_combine. rewrite range_length. lia.
Qed.

Lemma rank_campaigns64_rank (df : list Analyzer.CampaignMetrics) :
  map Analyzer.rank (Analyzer.rank_campaigns df) =
  map Z.of_nat (seq 1 (length df)).
Proof.
  unfold Analyzer.rank_campaigns. cbv zeta. rewrite map_map.
  cbn [Analyzer.rank].
  rewrite <- (map_map fst (fun x => x)), map_id.
  rewrite map_fst_combine by (rewrite range_length; lia).
  rewrite range_from_1. do 2 f_equal.
  apply Permutation_length. apply sort_values_descending.
Qed.

(** The ranking on binary64 numbers: as many rows, ranks 1..N, the same
    rows, in descending order of ROI with the NaN ROIs last. *)
Lemma rank_campaigns64_ok (df : list Analyzer.CampaignMetrics) :
  length (Analyzer.rank_campaigns df) = length df /\
  map Analyzer.rank (Analyzer.rank_campaigns df) =
    map Z.of_nat (seq 1 (length df)) /\
  Permutation (map Analyzer.metrics (Analyzer.rank_campaigns df)) df /\
  StronglySorted desc_nan_last (map roi_value (Analyzer.rank_campaigns df)).
Proof.
  pose proof (sort_values_descending
                (fun m => F64.value (Analyzer.ROI m)) df) as [Hperm Hsorted].
  rewrite <- rank_campaigns64_metrics in Hperm, Hsorted.
  split; [|split; [|split]].
  - rewrite <- (length_map Analyzer.metrics). now apply Permutation_length.
  - apply rank_campaigns64_rank.
  - exact Hperm.
  - rewrite map_map in Hsorted. exact Hsorted.
Qed.

(** ** Zero denominators *)

Lemma zero_denominator_metrics64 (r : Analyzer.CampaignRecord) :
  let m := Analyzer.round_metrics (Analyzer.derive_metrics r) in
  (Analyzer.impressions r = 0 -> exact_int (Analyzer.clicks r) ->
   Analyzer.CTR m = signed_quotient (Analyzer.clicks r ?= 0) false) /\
  (Analyzer.clicks r = 0 ->
   Analyzer.CPC m = quotient_by_zero (Analyzer.spend r) false /\
   (exact_int (Analyzer.conversions r) ->
    Analyzer.conversion_rate m =
    signed_quotient (Analyzer.conversions r ?= 0) false)) /\
  (Analyzer.conversions r = 0 ->
   Analyzer.CPA m = quotient_by_zero (Analyzer.spend r) false) /\
  (forall s, Prim2SF (Analyzer.spend r) = S754_zero s ->
             exact_int (Analyzer.conversions r * 50) ->
             Analyzer.ROI m = signed_quotient (Analyzer.conversions r ?= 0) s).
Proof.
  intros m. unfold m, Analyzer.round_metrics, Analyzer.derive_metrics.
  cbn [Analyzer.CTR Analyzer.CPC Analyzer.CPA Analyzer.conversion_rate
       Analyzer.ROI].
  assert (Hq : forall x s, F64.round (quotient_by_zero x s) 2
                           = quotient_by_zero x s /\
                           F64.round (quotient_by_zero x s * 100) 2
                           = quotient_by_zero x s).
  { intros x s. apply round_special, quotient_by_zero_special. }
  split; [|split; [|split]].
  - intros -> Hc. rewrite of_int64_0.
    rewrite (div_by_zero64 _ _ false Prim2SF_zero).
    rewrite (proj2 (Hq _ _)). now apply quotient_of_int.
  - intros ->. rewrite of_int64_0.
    rewrite !(div_by_zero64 _ _ false Prim2SF_zero).
    split; [apply Hq|]. intros Hc.
    rewrite (proj2 (Hq _ _)). now apply quotient_of_int.
  - intros ->. rewrite of_int64_0.
    rewrite (div_by_zero64 _ _ false Prim2SF_zero). apply Hq.
  - intros s Hs Hc. rewrite (div_by_zero64 _ _ s Hs).
    rewrite (proj2 (Hq _ _)).
    unfold Analyzer.avg_order_value.
    rewrite wrap64_small by (unfold exact_int in Hc; lia).
    rewrite (sub_zero_class _ _ s s Hc Hs).
    f_equal. destruct (Analyzer.conversions r); reflexivity.
Qed.

(** On a frame with numeric columns the report is produced, whatever
    the rows hold. *)
Lemma analyze_table_completes (df : list Analyzer.CampaignRecord) :
  exists out, Analyzer.analyze (Table df) = Ok out.
Proof.
  unfold Analyzer.analyze, Analyzer.generate_recommendations,
    Analyzer.budget_insight, truediv. cbv zeta. cbn [frame_map].
  cbn [Analyzer.sum_spend Analyzer.sum_conversions]. eexists. reflexivity.
Qed.

(** C3, as amended.  A zero denominator raises nothing, and the metric
    it divides is never a finite number.  With a counter as the zero
    denominator (impressions, clicks or conversions) the metric is NaN
    when its numerator is zero too, or NaN, and otherwise +inf or -inf
    by the sign of the numerator.  With the spend as the zero
    denominator the ROI is NaN when there is no conversion, and
    otherwise the infinity whose sign is the sign of the conversions,
    reversed when the spend is the negative zero.  Counters are taken
    below 2^53 in magnitude, where their floats are exact.  The pipeline
    completes on every frame with numeric columns; in the ranking the
    rows whose ROI is NaN come after all the others, and the rows whose
    ROI is +inf come before every row with a finite ROI.  The ROIs of a
    campaign without clicks, of one with a spend of 0 and of one with a
    spend of -0: -100, +inf and -inf. *)
Theorem zero_denominator_policy :
  (forall r : Analyzer.CampaignRecord,
      let m := Analyzer.round_metrics (Analyzer.derive_metrics r) in
      (Analyzer.impressions r = 0 -> exact_int (Analyzer.clicks r) ->
       Analyzer.CTR m = signed_quotient (Analyzer.clicks r ?= 0) false) /\
      (Analyzer.clicks r = 0 ->
       Analyzer.CPC m = quotient_by_zero (Analyzer.spend r) false /\
       (exact_int (Analyzer.conversions r) ->
        Analyzer.conversion_rate m =
        signed_quotient (Analyzer.conversions r ?= 0) false)) /\
      (Analyzer.conversions r = 0 ->
       Analyzer.CPA m = quotient_by_zero (Analyzer.spend r) false) /\
      (forall s : bool,
          Prim2SF (Analyzer.spend r) = S754_zero s ->
          exact_int (Analyzer.conversions r * 50) ->
          Analyzer.ROI m = signed_quotient (Analyzer.conversions r ?= 0) s)) /\
  (forall (x : float) (c : comparison) (s : bool),
      F64.isfinite (quotient_by_zero x s) = false /\
      F64.isfinite (signed_quotient c s) = false) /\
  (forall df : list Analyzer.CampaignRecord,
      exists out, Analyzer.analyze (Table df) = Ok out) /\
  (forall (df : list Analyzer.CampaignMetrics) (i j : nat)
          (a b : Analyzer.RankedCampaign),
      nth_error (Analyzer.rank_campaigns df) i = Some a ->
      nth_error (Analyzer.rank_campaigns df) j = Some b ->
      (Fl.isnan (roi_value a) = true -> Fl.isnan (roi_value b) = false ->
       (j < i)%nat) /\
      (roi_value a = PInf -> Fl.isfinite (roi_value b) = true ->
       (i < j)%nat)) /\
  map (fun r => Analyzer.ROI (Analyzer.round_metrics (Analyzer.derive_metrics r)))
      [example_Z; example_F; example_N]
  = [(-100)%float; infinity; neg_infinity].
Proof.
  split; [|split; [|split; [|split]]].
  - exact zero_denominator_metrics64.
  - intros x c s. split.
    + apply quotient_by_zero_not_finite.
    + apply signed_quotient_not_finite.
  - exact analyze_table_completes.
  - intros df i j a b Ha Hb.
    destruct (rank_campaigns64_ok df) as (_ & _ & _ & Hsorted).
    assert (Ha' := map_nth_error roi_value _ _ Ha).
    assert (Hb' := map_nth_error roi_value _ _ Hb).
    split.
    + intros Hna Hnb.
      destruct (Nat.lt_trichotomy i j) as [Hlt | [Heq | Hgt]];
        [| | exact Hgt].
      * destruct (StronglySorted_nth _ _ _ _ _ _ Hsorted Ha' Hb' Hlt)
          as [H | H]; [congruence|].
        destruct (roi_value a); destruct (roi_value b); discriminate.
      * subst j. congruence.
    + intros Hia Hfb.
      destruct (Nat.lt_trichotomy i j) as [Hlt | [Heq | Hgt]];
        [exact Hlt | |].
      * subst j. rewrite Ha in Hb. injection Hb as <-.
        rewrite Hia in Hfb. discriminate.
      * destruct (StronglySorted_nth _ _ _ _ _ _ Hsorted Hb' Ha' Hgt)
          as [H | H]; rewrite Hia in H; [discriminate|].
        destruct (roi_value b); discriminate.
  - vm_compute. reflexivity.
Qed.

(** C3, as stated, fails: with zero clicks and a positive spend the
    cost per click is +inf, not NaN; and a campaign whose spend is zero
    has an ROI of +inf and is ranked first, before a campaign whose ROI
    is defined. *)
Lemma zero_denominator_not_nan :
  Analyzer.clicks example_Z = 0 /\
  Analyzer.CPC (Analyzer.round_metrics (Analyzer.derive_metrics example_Z))
  = infinity /\
  F64.isnan
    (Analyzer.CPC (Analyzer.round_metrics (Analyzer.derive_metrics example_Z)))
  = false /\
  Analyzer.spend example_F = zero /\
  map roi_value
      (Analyzer.rank_campaigns (Analyzer.calculate_metrics [example_A; example_F]))
  = [PInf; Fin 150] /\
  names64
    (Analyzer.rank_campaigns (Analyzer.calculate_metrics [example_A; example_F]))
  = ["F"%string; "A"%string].
Proof. vm_compute. repeat split; reflexivity. Qed.

(** ** Medians and quantiles *)

Lemma leb_total (x y : fl) :
  Fl.isnan x = false -> Fl.isnan y = false ->
  Fl.leb x y = false -> Fl.leb y x = true.
Proof.
  destruct x as [a | | |], y as [b | | |]; simpl; try discriminate; auto.
  intros _ _ H. apply Qle_bool_iff.
  destruct (Qlt_le_dec b a) as [L | L]; [lra|].
  apply Qle_bool_iff in L. congruence.
Qed.

Lemma leb_trans (x y z : fl) :
  Fl.leb x y = true -> Fl.leb y z = true -> Fl.leb x z = true.
Proof.
  destruct x as [a | | |], y as [b | | |], z as [c | | |]; simpl;
    try discriminate; auto.
  rewrite !Qle_bool_iff. lra.
Qed.

Lemma insert_sorted64_perm (x : float) (s : list float) :
  Permutation (Series64.insert_sorted x s) (x :: s).
Proof.
  induction s as [| y s IH]; simpl; [reflexivity|].
  destruct (F64.leb x y); [reflexivity|].
  rewrite IH. apply perm_swap.
Qed.

Lemma sorted64_perm (xs : list float) : Permutation (Series64.sorted xs) xs.
Proof.
  induction xs as [| x xs IH]; simpl; [reflexivity|].
  rewrite insert_sorted64_perm. now constructor.
Qed.

Lemma insert_sorted64_ascending (x : float) (s : list float) :
  F64.isnan x = false -> Forall (fun y => F64.isnan y = false) s ->
  ascending s -> ascending (Series64.insert_sorted x s).
Proof.
  intros Hx Hs Hasc. induction Hasc as [| y s Hasc IH Hy]; simpl.
  - repeat constructor.
  - apply Forall_cons_iff in Hs as [Hny Hs].
    destruct (F64.leb x y) eqn:E.
    + constructor; [now constructor|].
      constructor; [exact E|].
      eapply Forall_impl; [|exact Hy]. intros z Hz.
      unfold F64.leb in *. eapply leb_trans; eassumption.
    + constructor; [now apply IH|].
      rewrite (Forall_forall _ _). intros z Hz.
      apply (Permutation_in _ (insert_sorted64_perm x s)) in Hz.
      destruct Hz as [<- | Hz].
      * unfold F64.leb, F64.isnan in *. now apply leb_total.
      * rewrite Forall_forall in Hy. now apply Hy.
Qed.

Lemma sorted64_ascending (xs : list float) :
  Forall (fun y => F64.isnan y = false) xs -> ascending (Series64.sorted xs).
Proof.
  induction 1 as [| x xs Hx Hxs IH]; simpl; [constructor|].
  apply insert_sorted64_ascending; [exact Hx | | exact IH].
  apply Forall_forall. intros y Hy.
  apply (Permutation_in _ (sorted64_perm xs)) in Hy.
  rewrite Forall_forall in Hxs. now apply Hxs.
Qed.

Lemma dropna64_sorted (xs : list float) :
  sorted_values xs (Series64.sorted (Series64.dropna xs)).
Proof.
  split.
  - apply sorted64_perm.
  - apply sorted64_ascending. apply Forall_forall. intros y Hy.
    apply filter_In in Hy as [_ Hy]. now apply negb_true_iff.
Qed.

(** The median of a column is the middle of its non-NaN values put in
    ascending order. *)
Lemma median_spec (xs : list float) :
  exists s, sorted_values xs s /\ Series64.median xs = middle s.
Proof.
  exists (Series64.sorted (Series64.dropna xs)).
  split; [apply dropna64_sorted | reflexivity].
Qed.

(** A quantile of a column is the linear interpolation over its non-NaN
    values put in ascending order. *)
Lemma quantile_spec (xs : list float) (p : float) :
  exists s, sorted_values xs s /\ Series64.quantile xs p = interpolate s p.
Proof.
  exists (Series64.sorted (Series64.dropna xs)).
  split; [apply dropna64_sorted | reflexivity].
Qed.

(** ** Comparisons and sums *)

Lemma ltb64_irrefl_eq (x y : float) :
  F64.value x = F64.value y -> F64.ltb x y = false /\ F64.gtb x y = false.
Proof.
  unfold F64.gtb, F64.ltb. intros ->.
  assert (H : forall v, Fl.ltb v v = false).
  { intros [a | | |]; simpl; try reflexivity.
    apply Qlt_bool_false. lra. }
  now rewrite H.
Qed.






(** ** The classifier's sections on binary64 numbers *)

(** C5.  The 75th percentile of the click-through rates and the median
    of the conversion rates are taken over all rows of the ranked
    frame: over the non-NaN values of the whole column in ascending
    order, the percentile by linear interpolation, the median as the
    middle value or the mean of the two middle values.  The section
    holds, in the order of the frame, exactly the rows whose
    click-through rate is above that percentile and whose conversion
    rate is below that median; a row that sits on either threshold is
    left out.  On 1, 2, 3, 4 the median is 2.5 and the percentile 3.25,
    on 1, 2, 3 they are 2 and 2.5, whatever the order of the entries
    and with NaN entries skipped.  In the portfolio H, I, J, K the
    section holds H alone. *)
Theorem high_ctr_low_conv_selection (df : list Analyzer.RankedCampaign) :
  (exists s, sorted_values (map ctr64 df) s /\
             Series64.quantile (map ctr64 df) 0.75 = interpolate s 0.75) /\
  (exists s, sorted_values (map rate64 df) s /\
             Series64.median (map rate64 df) = middle s) /\
  Analyzer.select_high_ctr_low_conv df =
    filter (fun row =>
              F64.gtb (ctr64 row) (Series64.quantile (map ctr64 df) 0.75)
              && F64.ltb (rate64 row) (Series64.median (map rate64 df)))
           df /\
  (forall row,
      F64.value (ctr64 row) =
      F64.value (Series64.quantile (map ctr64 df) 0.75) \/
      F64.value (rate64 row) = F64.value (Series64.median (map rate64 df)) ->
      ~ In row (Analyzer.select_high_ctr_low_conv df)) /\
  (middle [1; 2; 3; 4] = 2.5 /\ interpolate [1; 2; 3; 4] 0.75 = 3.25 /\
   middle [1; 2; 3] = 2 /\ interpolate [1; 2; 3] 0.75 = 2.5)%float /\
  (Series64.median [1; 2; 3; 4] = 2.5 /\
   Series64.quantile [1; 2; 3; 4] 0.75 = 3.25 /\
   Series64.median [3; nan; 1; 2] = 2 /\
   Series64.quantile [4; 1; nan; 3; 2] 0.75 = 3.25)%float /\
  names64 (Analyzer.select_high_ctr_low_conv ranked_portfolio) = ["H"%string].
Proof.
  split; [apply quantile_spec|].
  split; [apply median_spec|].
  split; [reflexivity|].
  split.
  - intros row H Hin.
    apply filter_In in Hin as [_ Hin]. apply andb_true_iff in Hin as [H1 H2].
    destruct H as [H | H]; apply ltb64_irrefl_eq in H as [Hl Hg].
    + unfold ctr64 in Hg. congruence.
    + unfold rate64 in Hl. congruence.
  - split; [|split]; vm_compute; repeat split; reflexivity.
Qed.




(** C8, as stated, fails: a CSV file with a header and no data row is an
    empty input, and on the frame read from it the pipeline raises
    [ZeroDivisionError]. *)
Lemma header_only_csv_raises :
  frame_rows (@HeaderOnly Analyzer.CampaignRecord) = [] /\
  Analyzer.analyze HeaderOnly = Raise ZeroDivisionError.
Proof. split; reflexivity. Qed.

(** C8, as amended.  On an empty input the ranker returns an empty
    output, for either kind of empty frame.  On an empty frame with
    numeric columns the classifier reports no data in its five sections
    and raises nothing: no top performers, no underperformers, no
    high-traffic/low-conversion rows, totals of zero with an average CPA
    of NaN and two empty partitions, and no quick wins.  On the empty
    frame read from a file with a header and no data row the first three
    sections are empty, both totals are the Python int 0, and their
    division raises [ZeroDivisionError]: the budget section and the
    quick wins are not reported. *)
Theorem empty_input_no_data :
  Analyzer.rank_campaigns [] = [] /\
  frame_map Analyzer.rank_campaigns
            (frame_map Analyzer.calculate_metrics (Table [])) = Table [] /\
  frame_map Analyzer.rank_campaigns
            (frame_map Analyzer.calculate_metrics HeaderOnly) = HeaderOnly /\
  Analyzer.generate_recommendations (Table []) = Ok no_data64 /\
  Analyzer.analyze (Table []) = Ok no_data64 /\
  (head 3 (frame_rows (@HeaderOnly Analyzer.RankedCampaign)) = [] /\
   tail 3 (frame_rows (@HeaderOnly Analyzer.RankedCampaign)) = [] /\
   Analyzer.select_high_ctr_low_conv (frame_rows HeaderOnly) = []) /\
  (Analyzer.sum_spend HeaderOnly = PyInt 0 /\
   Analyzer.sum_conversions HeaderOnly = PyInt 0 /\
   truediv (PyInt 0) (PyInt 0) = Raise ZeroDivisionError /\
   Analyzer.generate_recommendations HeaderOnly = Raise ZeroDivisionError).
Proof. vm_compute. repeat split; reflexivity. Qed.

(** ** The head and the tail of the ranking *)

Lemma StronglySorted_app_inv {A : Type} (R : A -> A -> Prop) (l1 l2 : list A) :
  StronglySorted R (l1 ++ l2) ->
  StronglySorted R l1 /\ StronglySorted R l2 /\
  forall x y, In x l1 -> In y l2 -> R x y.
Proof.
  induction l1 as [| a l1 IH]; simpl; intros H.
  - split; [constructor|]. split; [exact H|]. intros x y [].
  - apply StronglySorted_inv in H as [H Ha].
    destruct (IH H) as (H1 & H2 & H12).
    rewrite Forall_app in Ha. destruct Ha as [Ha1 Ha2].
    split; [now constructor|]. split; [exact H2|].
    intros x y [<- | Hx] Hy.
    + rewrite Forall_forall in Ha2. now apply Ha2.
    + now apply H12.
Qed.

Lemma StronglySorted_filter {A : Type} (R : A -> A -> Prop) (f : A -> bool)
  (l : list A) :
  StronglySorted R l -> StronglySorted R (filter f l).
Proof.
  induction 1 as [| a l H IH Ha]; simpl; [constructor|].
  destruct (f a); [|exact IH].
  constructor; [exact IH|].
  rewrite Forall_forall in *. intros x Hx. apply filter_In in Hx as [Hx _].
  now apply Ha.
Qed.

Lemma StronglySorted_of_map {A B : Type} (R : B -> B -> Prop) (f : A -> B)
  (l : list A) :
  StronglySorted R (map f l) -> StronglySorted (fun x y => R (f x) (f y)) l.
Proof.
  induction l as [| a l IH]; simpl; intros H; [constructor|].
  apply StronglySorted_inv in H as [H Ha].
  constructor; [now apply IH|].
  rewrite Forall_map in Ha. exact Ha.
Qed.

Lemma firstn_seq (k s n : nat) : firstn k (seq s n) = seq s (Nat.min k n).
Proof.
  revert s n. induction k as [| k IH]; intros s [| n]; simpl; try reflexivity.
  now rewrite IH.
Qed.

Lemma seq_rank_sorted (s n : nat) :
  StronglySorted Z.lt (map Z.of_nat (seq s n)).
Proof.
  revert s. induction n as [| n IH]; intros s; simpl; constructor.
  - apply IH.
  - apply Forall_forall. intros x Hx. apply in_map_iff in Hx as (k & <- & Hk).
    apply in_seq in Hk. lia.
Qed.

(** The ranked rows come with strictly increasing ranks. *)
Lemma rank_campaigns64_rank_lt (df : list Analyzer.CampaignMetrics) :
  StronglySorted rank_lt64 (Analyzer.rank_campaigns df).
Proof.
  apply (StronglySorted_of_map Z.lt Analyzer.rank).
  rewrite rank_campaigns64_rank. apply seq_rank_sorted.
Qed.

Lemma StronglySorted_NoDup {A : Type} (R : A -> A -> Prop) (l : list A) :
  (forall x, ~ R x x) -> StronglySorted R l -> NoDup l.
Proof.
  intros Hirr. induction 1 as [| a l H IH Ha]; constructor; [|exact IH].
  intros Hin. rewrite Forall_forall in Ha. exact (Hirr a (Ha a Hin)).
Qed.

Lemma rank_campaigns64_NoDup (df : list Analyzer.CampaignMetrics) :
  NoDup (Analyzer.rank_campaigns df).
Proof.
  apply (StronglySorted_NoDup rank_lt64).
  - intros x. unfold rank_lt64. lia.
  - apply rank_campaigns64_rank_lt.
Qed.

Lemma recommendations_of_table (rows : list Analyzer.RankedCampaign) :
  exists b,
    Analyzer.budget_insight (Table rows) = Ok b /\
    Analyzer.efficient_campaigns b =
      filter (fun row => F64.ltb (cpa64 row) (Analyzer.avg_cpa b)) rows /\
    Analyzer.inefficient_campaigns b =
      filter (fun row => F64.gtb (cpa64 row) (Analyzer.avg_cpa b)) rows /\
    Analyzer.generate_recommendations (Table rows) =
    Ok {| Analyzer.top_performers := head 3 rows;
          Analyzer.underperformers :=
            map (fun row => (row, Analyzer.findings rows row)) (tail 3 rows);
          Analyzer.high_ctr_low_conv := Analyzer.select_high_ctr_low_conv rows;
          Analyzer.budget := b;
          Analyzer.quick_wins :=
            Analyzer.report_quick_wins (Analyzer.select_quick_wins rows) |}.
Proof.
  unfold Analyzer.generate_recommendations, Analyzer.budget_insight,
    Analyzer.sum_spend, Analyzer.sum_conversions, truediv, scalar_float.
  cbv zeta. cbn [frame_rows]. eexists.
  split; [reflexivity|]. split; [reflexivity|]. split; reflexivity.
Qed.

Lemma quick_win_rows64_report (rows : list Analyzer.RankedCampaign) :
  quick_win_rows64 (Analyzer.report_quick_wins rows) = rows.
Proof. destruct rows; reflexivity. Qed.

(** X1.  The top performers are the first rows of the ranking and the
    underperformers the last ones, three of each or all rows when there
    are fewer: the top performers carry the ranks 1, 2, 3 and no row
    outside them has a larger ROI; the underperformers carry the last
    ranks and no row outside them has a smaller ROI, a NaN ROI counting
    as the smallest. *)
Theorem top_lead_bottom_trail (df : list Analyzer.CampaignMetrics) :
  exists R,
    Analyzer.generate_recommendations (Table (Analyzer.rank_campaigns df))
    = Ok R /\
    (forall a b, In a (Analyzer.top_performers R) ->
                 In b (skipn 3 (Analyzer.rank_campaigns df)) ->
                 desc_nan_last (roi_value a) (roi_value b)) /\
    (forall a b, In a (firstn (length df - 3) (Analyzer.rank_campaigns df)) ->
                 In b (bottom_rows64 R) ->
                 desc_nan_last (roi_value a) (roi_value b)) /\
    map Analyzer.rank (Analyzer.top_performers R)
    = map Z.of_nat (seq 1 (Nat.min 3 (length df))) /\
    map Analyzer.rank (bottom_rows64 R)
    = map Z.of_nat (seq (1 + (length df - 3)) (Nat.min 3 (length df))).
Proof.
  destruct (rank_campaigns64_ok df) as (Hlen & Hranks & _ & Hsorted).
  generalize dependent (Analyzer.rank_campaigns df). intros ranked Hlen Hranks Hsorted.
  destruct (recommendations_of_table ranked) as (b & _ & _ & _ & HR).
  eexists. split; [exact HR|].
  unfold bottom_rows64.
  cbn [Analyzer.top_performers Analyzer.underperformers].
  rewrite map_map. cbn [fst]. rewrite map_id. unfold head, tail.
  rewrite Hlen.
  split; [|split; [|split]].
  - intros x y Hx Hy.
    rewrite <- (firstn_skipn 3 ranked), map_app in Hsorted.
    apply StronglySorted_app_inv in Hsorted as (_ & _ & H).
    apply H; now apply in_map.
  - intros x y Hx Hy.
    rewrite <- (firstn_skipn (length df - 3) ranked), map_app in Hsorted.
    apply StronglySorted_app_inv in Hsorted as (_ & _ & H).
    apply H; now apply in_map.
  - rewrite <- firstn_map, Hranks, firstn_map, firstn_seq. reflexivity.
  - rewrite <- skipn_map, Hranks, skipn_map, skipn_seq.
    f_equal. f_equal. lia.
Qed.

(** X2.  Both sections hold three rows, or all rows when there are
    fewer, and some campaign is listed both as a top performer and as an
    underperformer exactly when the frame has one to five rows. *)
Theorem top_bottom_overlap (df : list Analyzer.CampaignMetrics) :
  exists R,
    Analyzer.generate_recommendations (Table (Analyzer.rank_campaigns df))
    = Ok R /\
    length (Analyzer.top_performers R) = Nat.min 3 (length df) /\
    length (bottom_rows64 R) = Nat.min 3 (length df) /\
    ((exists row, In row (Analyzer.top_performers R) /\
                  In row (bottom_rows64 R)) <->
     (0 < length df < 6)%nat).
Proof.
  destruct (rank_campaigns64_ok df) as (Hlen & _).
  pose proof (rank_campaigns64_NoDup df) as Hnd.
  generalize dependent (Analyzer.rank_campaigns df). intros ranked Hlen Hnd.
  destruct (recommendations_of_table ranked) as (b & _ & _ & _ & HR).
  eexists. split; [exact HR|].
  unfold bottom_rows64.
  cbn [Analyzer.top_performers Analyzer.underperformers].
  rewrite map_map. cbn [fst]. rewrite map_id. unfold head, tail.
  split; [rewrite length_firstn; lia|].
  split; [rewrite length_skipn; lia|].
  split.
  - intros (row & Htop & Hbot).
    assert (Hn : (0 < length df)%nat).
    { destruct ranked; [destruct Htop|]. simpl in Hlen. lia. }
    split; [exact Hn|].
    destruct (Nat.lt_ge_cases (length df) 6) as [L | G]; [exact L|].
    exfalso.
    assert (Hbot' : In row (skipn 3 ranked)).
    { replace (length ranked - 3)%nat with ((length ranked - 6) + 3)%nat
        in Hbot by lia.
      rewrite <- skipn_skipn in Hbot.
      rewrite <- (firstn_skipn (length ranked - 6) (skipn 3 ranked)).
      apply in_or_app. now right. }
    assert (Hnd' : NoDup (firstn 3 ranked ++ skipn 3 ranked))
      by (rewrite firstn_skipn; exact Hnd).
    apply in_split in Htop as (u & w & E). rewrite E in Hnd'.
    rewrite <- app_assoc in Hnd'. simpl in Hnd'.
    apply NoDup_remove_2 in Hnd'. apply Hnd'.
    rewrite app_assoc. apply in_or_app. now right.
  - intros [Hpos Hlt6].
    destruct (nth_error ranked (length ranked - 3)) as [row|] eqn:E;
      [|apply nth_error_None in E; lia].
    exists row. split.
    + apply (nth_error_In _ (length ranked - 3)).
      rewrite nth_error_firstn.
      destruct (Nat.ltb_spec (length ranked - 3) 3); [exact E | lia].
    + apply (nth_error_In _ 0).
      rewrite nth_error_skipn. now rewrite Nat.add_0_r.
Qed.

(** X3.  Every section of the report lists its campaigns in the order
    of the ranking: by increasing rank, no campaign twice. *)
Theorem sections_in_rank_order (df : list Analyzer.CampaignMetrics) :
  exists R,
    Analyzer.generate_recommendations (Table (Analyzer.rank_campaigns df))
    = Ok R /\
    StronglySorted rank_lt64 (Analyzer.top_performers R) /\
    StronglySorted rank_lt64 (bottom_rows64 R) /\
    StronglySorted rank_lt64 (Analyzer.high_ctr_low_conv R) /\
    StronglySorted rank_lt64 (Analyzer.efficient_campaigns (Analyzer.budget R)) /\
    StronglySorted rank_lt64 (Analyzer.inefficient_campaigns (Analyzer.budget R)) /\
    StronglySorted rank_lt64 (quick_win_rows64 (Analyzer.quick_wins R)).
Proof.
  pose proof (rank_campaigns64_rank_lt df) as H.
  generalize dependent (Analyzer.rank_campaigns df). intros ranked H.
  destruct (recommendations_of_table ranked) as (b & _ & He & Hi & HR).
  eexists. split; [exact HR|].
  unfold bottom_rows64.
  cbn [Analyzer.top_performers Analyzer.underperformers
       Analyzer.high_ctr_low_conv Analyzer.budget Analyzer.quick_wins].
  rewrite map_map. cbn [fst]. rewrite map_id, quick_win_rows64_report.
  rewrite He, Hi.
  unfold head, tail, Analyzer.select_high_ctr_low_conv,
    Analyzer.select_quick_wins. cbv zeta.
  repeat split; try (now apply StronglySorted_filter).
  - rewrite <- (firstn_skipn 3 ranked) in H.
    now apply StronglySorted_app_inv in H as (H1 & _).
  - rewrite <- (firstn_skipn (length ranked - 3) ranked) in H.
    now apply StronglySorted_app_inv in H as (_ & H2 & _).
Qed.
